(** * addCSVtoOSM: address normalisation, CSV/OSM extraction, reconciliation

    A shallow embedding of [main.py].  Python strings are lists of
    characters (code points U+0000..U+00FF, i.e. Latin-1 text; the character
    classes below are Python's [str.isspace], [str.isdigit], [str.lower] and
    the regular-expression class [\w] restricted to that range).  Python
    dictionaries are association lists in insertion order with unique keys.
    Exceptions are an explicit error result.  The lxml tree is a rose tree of
    elements; an element reference is a path of child indices.  Of lxml's
    path language the paths [.//*[@k1='v1'][@k2='v2']...] are evaluated;
    what lxml answers for any other path text is a parameter, and so is the
    geocoder. *)

From Stdlib Require Import Ascii String Numbers.DecimalString.
From Stdlib Require Import Bool Arith Lia List Permutation Sorted.
Import ListNotations.
Open Scope string_scope.
Open Scope list_scope.
Open Scope nat_scope.

Set Implicit Arguments.

(** ** Strings *)

Definition str := list ascii.

Definition str_of_string (s : string) : str := list_ascii_of_string s.
Coercion str_of_string : string >-> str.

Definition ord (c : ascii) : nat := nat_of_ascii c.

Definition between (lo hi n : nat) : bool := (lo <=? n) && (n <=? hi).

(** [str.isspace] of one character; also the class [\s]. *)
Definition c_isspace (c : ascii) : bool :=
  let n := ord c in
  between 9 13 n || between 28 32 n || (n =? 133) || (n =? 160).

(** [str.isdigit] of one character. *)
Definition c_isdigit (c : ascii) : bool :=
  let n := ord c in
  between 48 57 n || between 178 179 n || (n =? 185).

(** The class [\w]: alphanumeric characters and the underscore. *)
Definition c_isword (c : ascii) : bool :=
  let n := ord c in
  between 48 57 n || between 65 90 n || (n =? 95) || between 97 122 n
  || (n =? 170) || between 178 179 n || (n =? 181) || between 185 186 n
  || between 188 190 n || between 192 214 n || between 216 246 n
  || between 248 255 n.

(** [str.lower] of one character. *)
Definition c_lower (c : ascii) : ascii :=
  let n := ord c in
  if between 65 90 n || between 192 214 n || between 216 222 n
  then ascii_of_nat (n + 32) else c.

Fixpoint str_eqb (a b : str) : bool :=
  match a, b with
  | [], [] => true
  | x :: a', y :: b' => Ascii.eqb x y && str_eqb a' b'
  | _, _ => false
  end.

(** [s.lower()] *)
Definition lower (s : str) : str := map c_lower s.

Fixpoint lstrip (s : str) : str :=
  match s with
  | [] => []
  | c :: s' => if c_isspace c then lstrip s' else s
  end.

Definition rstrip (s : str) : str := rev (lstrip (rev s)).

(** [s.strip()] *)
Definition strip (s : str) : str := rstrip (lstrip s).

(** [re.sub(r'[^\w\s]', '', s)] *)
Definition re_sub_punct (s : str) : str :=
  filter (fun c => c_isword c || c_isspace c) s.

(** [s.split()]: maximal runs of non-whitespace characters. *)
Fixpoint split (s : str) : list str :=
  match s with
  | [] => []
  | c :: s' =>
      if c_isspace c then split s'
      else match s' with
           | [] => [[c]]
           | c' :: _ =>
               if c_isspace c' then [c] :: split s'
               else match split s' with
                    | t :: ts => (c :: t) :: ts
                    | [] => [[c]]
                    end
           end
  end.

(** [sep.join(parts)] *)
Fixpoint join (sep : str) (parts : list str) : str :=
  match parts with
  | [] => []
  | [p] => p
  | p :: rest => p ++ sep ++ join sep rest
  end.

(** [s.isdigit()]: non-empty and every character a digit. *)
Definition isdigit (s : str) : bool :=
  match s with
  | [] => false
  | _ => forallb c_isdigit s
  end.

(** ** Exceptions *)

Inductive exn : Set :=
| IndexError | KeyError | TypeError | ValueError | StopIteration | SyntaxError.

Inductive result (A : Type) : Type :=
| Ok (a : A)
| Raise (e : exn).
Arguments Ok {A} a.
Arguments Raise {A} e.

Definition bind {A B : Type} (m : result A) (k : A -> result B) : result B :=
  match m with
  | Ok a => k a
  | Raise e => Raise e
  end.

Notation "x <- m ;; k" := (bind m (fun x => k))
  (at level 61, m at next level, right associativity).

(** ** Dictionaries *)

Definition dict (V : Type) := list (str * V).

Fixpoint dict_get {V : Type} (d : dict V) (k : str) : option V :=
  match d with
  | [] => None
  | (k', v) :: d' => if str_eqb k' k then Some v else dict_get d' k
  end.

(** [k in d] *)
Definition dict_in {V : Type} (d : dict V) (k : str) : bool :=
  match dict_get d k with
  | Some _ => true
  | None => false
  end.

(** [d[k] = v]: an existing key keeps its position, a new one goes last. *)
Fixpoint dict_set {V : Type} (d : dict V) (k : str) (v : V) : dict V :=
  match d with
  | [] => [(k, v)]
  | (k', v') :: d' =>
      if str_eqb k' k then (k', v) :: d' else (k', v') :: dict_set d' k v
  end.

(** [d[k]] *)
Definition dict_item {V : Type} (d : dict V) (k : str) : result V :=
  match dict_get d k with
  | Some v => Ok v
  | None => Raise KeyError
  end.

Definition keys {V : Type} (d : dict V) : list str := map fst d.

(** ** The abbreviation table *)

Definition item (k v : string) : str * str := (str_of_string k, str_of_string v).

Definition street_types : dict str :=
  [ item "Ave" "Avenue";
    item "Blvd" "Boulevard";
    item "Cir" "Circle";
    item "Ct" "Court";
    item "Dr" "Drive";
    item "Ln" "Lane";
    item "N" "North";
    item "Ne" "Northeast";
    item "Nw" "Northwest";
    item "Pky" "Parkway";
    item "Pl" "Place";
    item "Rd" "Road";
    item "S" "South";
    item "Se" "Southeast";
    item "Sw" "Southwest";
    item "St" "Street";
    item "W" "West" ].

(** [{k.lower(): v.lower() for k, v in street_types.items()}] *)
Definition street_types_lower : dict str :=
  fold_left (fun d kv => dict_set d (lower (fst kv)) (lower (snd kv)))
            street_types [].

(** ** parse_address *)

(** [street_parts[-1]]; read only where the list is known to be non-empty. *)
Definition last_part (street_parts : list str) : str := last street_parts [].

(** The test of the unit-number branch:
    [len(street_parts) > 1 and
     (street_parts[-1].isdigit() or len(street_parts[-1]) == 1)]. *)
Definition unit_detected (street_parts : list str) : bool :=
  (1 <? length street_parts)
  && (isdigit (last_part street_parts) || (length (last_part street_parts) =? 1)).

(** [street_parts[:-2]] *)
Definition drop_last_two (street_parts : list str) : list str :=
  firstn (length street_parts - 2) street_parts.

(** [if street_parts[0].lower() in street_types_lower:
        street_parts[0] = street_types_lower[street_parts[0]]] *)
Definition expand_first (street_parts : list str) : result (list str) :=
  match street_parts with
  | [] => Raise IndexError
  | p :: rest =>
      if dict_in street_types_lower (lower p)
      then v <- dict_item street_types_lower p ;; Ok (v :: rest)
      else Ok street_parts
  end.

(** [if street_parts[-1].lower() in street_types_lower:
        street_parts[-1] = street_types_lower[street_parts[-1]]] *)
Definition expand_last (street_parts : list str) : result (list str) :=
  match street_parts with
  | [] => Raise IndexError
  | _ :: _ =>
      let p := last_part street_parts in
      if dict_in street_types_lower (lower p)
      then v <- dict_item street_types_lower p ;;
           Ok (removelast street_parts ++ [v])
      else Ok street_parts
  end.

(** The cleaned address: lowercased, stripped, punctuation removed. *)
Definition clean (address : str) : str :=
  re_sub_punct (strip (lower address)).

Definition parse_address (address : str) : result str :=
  let address := clean address in
  let parts := split address in
  match parts with
  | [] => Ok address
  | street_number :: street_parts =>
      let unit := unit_detected street_parts in
      let street_number' :=
        if unit then join "," [street_number; last_part street_parts]
        else street_number in
      let street_parts' :=
        if unit then drop_last_two street_parts else street_parts in
      street_parts1 <- expand_first street_parts' ;;
      street_parts2 <- expand_last street_parts1 ;;
      let street_name := join " " street_parts2 in
      Ok (join " " [street_number'; street_name])
  end.

(** ** extract_csv_data *)

(** [l[i]] *)
Definition getitem {A : Type} (l : list A) (i : nat) : result A :=
  match nth_error l i with
  | Some x => Ok x
  | None => Raise IndexError
  end.

(** Python's [<] on strings: lexicographic by code point. *)
Fixpoint str_compare (a b : str) : comparison :=
  match a, b with
  | [], [] => Eq
  | [], _ :: _ => Lt
  | _ :: _, [] => Gt
  | x :: a', y :: b' =>
      match Nat.compare (ord x) (ord y) with
      | Eq => str_compare a' b'
      | c => c
      end
  end.

(** [<=] on [(key, value)] tuples. *)
Definition item_leb (x y : str * str) : bool :=
  match str_compare (fst x) (fst y) with
  | Lt => true
  | Gt => false
  | Eq => match str_compare (snd x) (snd y) with Gt => false | _ => true end
  end.

Fixpoint insert_sorted (x : str * str) (l : list (str * str)) : list (str * str) :=
  match l with
  | [] => [x]
  | y :: l' => if item_leb x y then x :: l else y :: insert_sorted x l'
  end.

(** [sorted(items)] (stable). *)
Definition sorted (items : list (str * str)) : list (str * str) :=
  fold_right insert_sorted [] items.

(** [dict(items)] *)
Definition dict_of_items {V : Type} (items : list (str * V)) : dict V :=
  fold_left (fun d kv => dict_set d (fst kv) (snd kv)) items [].

(** The body of [for row in reader]; [continue] leaves the dictionary as
    it is. *)
Definition csv_row (dwelling_dict : dict str) (row : list str)
  : result (dict str) :=
  match row with
  | [] => Ok dwelling_dict
  | _ :: _ =>
      raw <- getitem row 0 ;;
      address <- parse_address raw ;;
      if length address <? 5 then Ok dwelling_dict
      else dwelling_units <- getitem row 2 ;;
           Ok (dict_set dwelling_dict address dwelling_units)
  end.

Fixpoint csv_rows (dwelling_dict : dict str) (rows : list (list str))
  : result (dict str) :=
  match rows with
  | [] => Ok dwelling_dict
  | row :: rest => d <- csv_row dwelling_dict row ;; csv_rows d rest
  end.

(** [reader] is what [csv.reader] yields: one list of columns per line.
    [next(reader)] raises [StopIteration] on a file without lines. *)
Definition extract_csv_data (reader : list (list str)) : result (dict str) :=
  match reader with
  | [] => Raise StopIteration
  | _header :: rows =>
      dwelling_dict <- csv_rows [] rows ;;
      Ok (dict_of_items (sorted dwelling_dict))
  end.

(** ** The element tree *)

(** An lxml element: its tag, its attributes and its element children
    (text, comments and processing instructions are left out). *)
#[local] Unset Elimination Schemes.
Inductive element : Type :=
| Element (tag : str) (attrib : dict str) (children : list element).
#[local] Set Elimination Schemes.

Definition tag (e : element) : str := let 'Element t _ _ := e in t.
Definition attrib (e : element) : dict str := let 'Element _ a _ := e in a.
Definition children (e : element) : list element := let 'Element _ _ cs := e in cs.

(** [e.get(k)] *)
Definition get (e : element) (k : str) : option str := dict_get (attrib e) k.

(** The element and its descendants in document order. *)
Fixpoint iter (e : element) : list element :=
  match e with
  | Element _ _ cs => e :: flat_map iter cs
  end.

Definition descendants (e : element) : list element :=
  flat_map iter (children e).

(** An element reference: the child indices that lead to it from the root. *)
Definition path := list nat.

Fixpoint get_at (e : element) (p : path) : option element :=
  match p with
  | [] => Some e
  | i :: p' =>
      match nth_error (children e) i with
      | Some c => get_at c p'
      | None => None
      end
  end.

Section FirstMatch.
Variable search : element -> option path.

Fixpoint first_child (cs : list element) (i : nat) : option path :=
  match cs with
  | [] => None
  | c :: cs' =>
      match search c with
      | Some p => Some (i :: p)
      | None => first_child cs' (S i)
      end
  end.
End FirstMatch.

(** The first element in document order, among [e] and its descendants,
    that satisfies [f]. *)
Fixpoint first_match (f : element -> bool) (e : element) : option path :=
  if f e then Some []
  else match e with
       | Element _ _ cs => first_child (first_match f) cs 0
       end.

Fixpoint update_nth {A : Type} (i : nat) (f : A -> A) (l : list A) : list A :=
  match l, i with
  | [], _ => []
  | x :: l', 0 => f x :: l'
  | x :: l', S i' => x :: update_nth i' f l'
  end.

(** [node.append(new)] for the element referenced by [p]. *)
Fixpoint append_at (e : element) (p : path) (new : element) : element :=
  match p with
  | [] => Element (tag e) (attrib e) (children e ++ [new])
  | i :: p' =>
      Element (tag e) (attrib e)
              (update_nth i (fun c => append_at c p' new) (children e))
  end.

(** ** extract_osm_data *)

Definition addr_street : str := str_of_string "addr:street".
Definition addr_housenumber : str := str_of_string "addr:housenumber".

(** The predicate [tag[@k='addr:street' or @k='addr:housenumber']]. *)
Definition is_addr_tag (t : element) : bool :=
  str_eqb (tag t) "tag"
  && match get t "k" with
     | Some k => str_eqb k addr_street || str_eqb k addr_housenumber
     | None => false
     end.

(** [//node|//way[descendant::tag[@k='addr:street' or @k='addr:housenumber']]]:
    the predicate binds to the [way] step only, so every [node] is selected. *)
Definition xpath_buildings (root : element) : list element :=
  filter (fun e => str_eqb (tag e) "node"
                   || (str_eqb (tag e) "way"
                       && existsb is_addr_tag (descendants e)))
         (iter root).

(** [element.xpath("tag[@k='addr:street' or @k='addr:housenumber']")] *)
Definition xpath_addr_tags (e : element) : list element :=
  filter is_addr_tag (children e).

(** [str(x)] of an attribute value that may be [None]. *)
Definition str_of_option (o : option str) : str :=
  match o with
  | Some s => s
  | None => str_of_string "None"
  end.

(** [tags[tag.get('k')] = tag.get('v')] over the selected tags, each of
    which carries a [k]. *)
Definition collect_tags (tag_elements : list element) : dict (option str) :=
  fold_left (fun tags t => dict_set tags (str_of_option (get t "k")) (get t "v"))
            tag_elements [].

(** [' '.join([a, b])] of two values that may be [None]. *)
Definition join_values (sep : str) (a b : option str) : result str :=
  match a, b with
  | Some x, Some y => Ok (join sep [x; y])
  | _, _ => Raise TypeError
  end.

(** The body of [for element in building_elements]. *)
Definition osm_element (address_dict : dict str) (e : element)
  : result (dict str) :=
  let id := str_of_option (get e "id") in
  let tags := collect_tags (xpath_addr_tags e) in
  if 1 <? length tags then
    hn <- dict_item tags addr_housenumber ;;
    st <- dict_item tags addr_street ;;
    address <- join_values " " hn st ;;
    Ok (dict_set address_dict id (lower address))
  else Ok address_dict.

Fixpoint osm_elements (address_dict : dict str) (es : list element)
  : result (dict str) :=
  match es with
  | [] => Ok address_dict
  | e :: rest => d <- osm_element address_dict e ;; osm_elements d rest
  end.

(** [root] is the root element of the parsed file. *)
Definition extract_osm_data (root : element) : result (dict str) :=
  osm_elements [] (xpath_buildings root).

(** ** append_xml *)

(** The predicate [[@id='...']]. *)
Definition has_id (id : str) (e : element) : bool :=
  match get e "id" with
  | Some v => str_eqb v id
  | None => false
  end.

(** lxml accepts no control characters in attribute values. *)
Definition xml_compatible (s : str) : bool :=
  forallb (fun c => (32 <=? ord c) || (ord c =? 9) || (ord c =? 10)
                    || (ord c =? 13)) s.

(** The element [<tag k="dwelling_units" v=value/>]. *)
Definition dwelling_tag (value : str) : element :=
  Element "tag" [item "k" "dwelling_units"; (str_of_string "v", value)] [].

(** [et.Element('tag', k='dwelling_units', v=value)] *)
Definition new_dwelling_tag (value : str) : result element :=
  if xml_compatible value then Ok (dwelling_tag value) else Raise ValueError.

(** The text of the path expression, [f".//*[@id='{id}']"]: the identifier
    is pasted between the single quotes as it is. *)
Definition id_path (id : str) : str :=
  str_of_string ".//*[@id='" ++ id ++ str_of_string "']".

(** Reading predicates of the form [[@key='value']], one character at a
    time: what is expected next, or the key or value read so far. *)
Inductive scan_state : Type :=
| ExpectOpen
| ExpectAt
| InKey (key : str)
| ExpectQuote (key : str)
| InValue (key value : str)
| ExpectClose (key value : str).

(** The predicates [[@key='value']...] that [s] consists of, if it does: a
    key is a run of word characters, a value any text without a single
    quote, and nothing stands between or around the predicates. *)
Fixpoint scan_predicates (s : str) (st : scan_state) (done : list (str * str))
  : option (list (str * str)) :=
  match s with
  | [] => match st with ExpectOpen => Some done | _ => None end
  | c :: s' =>
      match st with
      | ExpectOpen =>
          if Ascii.eqb c "["%char then scan_predicates s' ExpectAt done else None
      | ExpectAt =>
          if Ascii.eqb c "@"%char then scan_predicates s' (InKey []) done
          else None
      | InKey key =>
          if c_isword c then scan_predicates s' (InKey (key ++ [c])) done
          else if Ascii.eqb c "="%char
               then match key with
                    | [] => None
                    | _ :: _ => scan_predicates s' (ExpectQuote key) done
                    end
               else None
      | ExpectQuote key =>
          if Ascii.eqb c "'"%char then scan_predicates s' (InValue key []) done
          else None
      | InValue key value =>
          if Ascii.eqb c "'"%char
          then scan_predicates s' (ExpectClose key value) done
          else scan_predicates s' (InValue key (value ++ [c])) done
      | ExpectClose key value =>
          if Ascii.eqb c "]"%char
          then scan_predicates s' ExpectOpen (done ++ [(key, value)])
          else None
      end
  end.

(** The predicates of a path of the form [.//*[@k1='v1'][@k2='v2']...],
    with one predicate at least. *)
Definition predicates_of (path : str) : option (list (str * str)) :=
  match path with
  | "."%char :: "/"%char :: "/"%char :: "*"%char :: rest =>
      match scan_predicates rest ExpectOpen [] with
      | Some (p :: ps) => Some (p :: ps)
      | _ => None
      end
  | _ => None
  end.

(** An element passes the predicates [[@key='value']] when each of the
    attributes has the value asked for. *)
Definition holds (predicates : list (str * str)) (e : element) : bool :=
  forallb (fun kv => match get e (fst kv) with
                     | Some v => str_eqb v (snd kv)
                     | None => false
                     end) predicates.

Section ElementPath.
(** What lxml's [find] answers for a path expression that is not of the form
    [.//*[@k1='v1'][@k2='v2']...]: a located element, nothing, or an
    exception.  An identifier that holds a single quote can make the pasted
    text any expression of lxml's path language; that language is not
    modelled beyond the form above. *)
Variable element_path : element -> str -> result (option path).

(** [xml_tree.find(f".//*[@id='{id}']")].  For a path [.//*] followed by
    predicates [[@key='value']], lxml goes through the proper descendants of
    the root in document order, keeps those that pass every predicate and
    returns the first.  An identifier without a single quote gives the one
    predicate [[@id='id']]; the identifier [8'][@id='8] gives
    [.//*[@id='8'][@id='8']], which locates the element 8. *)
Definition find (xml_tree : element) (id : str) : result (option path) :=
  match predicates_of (id_path id) with
  | Some predicates =>
      Ok (first_child (first_match (holds predicates)) (children xml_tree) 0)
  | None => element_path xml_tree (id_path id)
  end.

(** The loop of [append_xml].  [output_dict] is the caller's dictionary and
    keeps what was stored in it when an exception ends the loop; the tree is
    local and is written out only after the loop.  The counters [node_count]
    and [way_count] are never read and are left out; reading
    [node_element[0]] for them raises on an element without children. *)
Fixpoint append_loop (input_dict : dict str) (items : list (str * str))
    (xml_tree : element) (output_dict : dict str)
  : dict str * result element :=
  match items with
  | [] => (output_dict, Ok xml_tree)
  | (id, address) :: rest =>
      if dict_in input_dict address then
        match find xml_tree id with
        | Raise e => (output_dict, Raise e)
        | Ok None => append_loop input_dict rest xml_tree output_dict
        | Ok (Some p) =>
            let node_element := get_at xml_tree p in
            let output_dict := dict_set output_dict id address in
            match option_map children node_element with
            | None | Some [] => (output_dict, Raise IndexError)
            | Some (_matched_element :: _) =>
                match v <- dict_item input_dict address ;; new_dwelling_tag v with
                | Raise e => (output_dict, Raise e)
                | Ok new_tag =>
                    append_loop input_dict rest
                                (append_at xml_tree p new_tag) output_dict
                end
            end
        end
      else append_loop input_dict rest xml_tree output_dict
  end.

(** [append_xml]: the tree parsed from [xml_file], the final [output_dict]
    and the tree written to [portland_dwelling_units.osm], or the exception
    raised. *)
Definition append_xml (xml_tree : element) (element_dict input_dict output_dict : dict str)
  : dict str * result element :=
  append_loop input_dict element_dict xml_tree output_dict.
End ElementPath.

(** A stand-in for the parameter [element_path], for runs in which every
    path is of the modelled form and the parameter is never consulted. *)
Definition any_element_path (xml_tree : element) (path_text : str)
  : result (option path) :=
  Ok None.

(** ** map_addresses *)

Section MapPublisher.
(** The geocoder: an address to a latitude and a longitude, or nothing. *)
Variable coord : Type.
Variable geocode : str -> option (coord * coord).

Record marker : Type := Marker { location : coord * coord; popup : str }.

Definition max_addresses : nat := 600.

(** [f"{address}\n({id})"] *)
Definition popup_text (id address : str) : str :=
  address ++ [ascii_of_nat 10] ++ str_of_string "(" ++ id ++ str_of_string ")".

(** The loop of [map_addresses]: the counter and the markers added. *)
Fixpoint map_loop (items : list (str * str)) (mapped_addresses : nat)
    (m : list marker) : nat * list marker :=
  match items with
  | [] => (mapped_addresses, m)
  | (id, address) :: rest =>
      if max_addresses <? mapped_addresses then (mapped_addresses, m)
      else
        let mapped_addresses := mapped_addresses + 1 in
        match geocode address with
        | Some loc =>
            map_loop rest mapped_addresses
                     (m ++ [Marker loc (popup_text id address)])
        | None => map_loop rest mapped_addresses m
        end
  end.

Definition map_addresses (address_dict : dict str) : nat * list marker :=
  map_loop address_dict 0 [].

(** The markers of the entries that geocode, in order. *)
Definition markers_of (items : list (str * str)) : list marker :=
  flat_map (fun kv =>
              match geocode (snd kv) with
              | Some loc => [Marker loc (popup_text (fst kv) (snd kv))]
              | None => []
              end) items.
End MapPublisher.

(** ** The program *)

Section Main.
Variable element_path : element -> str -> result (option path).
Variable coord : Type.
Variable geocode : str -> option (coord * coord).

(** The [__main__] block: [reader] is the content of [data.csv] and [root]
    the document of [data.xml], which both [extract_osm_data] and
    [append_xml] parse.  An exception of a stage ends the program.  The
    result is the tree written, the dictionary [addresses] and what
    [map_addresses] did with it. *)
Definition main (reader : list (list str)) (root : element)
  : result (element * dict str * (nat * list (marker coord))) :=
  csv_dict <- extract_csv_data reader ;;
  xml_dict <- extract_osm_data root ;;
  match append_xml element_path root xml_dict csv_dict [] with
  | (addresses, Ok tree) => Ok (tree, addresses, map_addresses geocode addresses)
  | (_, Raise e) => Raise e
  end.
End Main.

(** ** Notions the statements below are written in *)

(** The [node] and [way] elements of the document, in document order. *)
Definition is_building (e : element) : bool :=
  str_eqb (tag e) "node" || str_eqb (tag e) "way".

Definition node_way_elements (root : element) : list element :=
  filter is_building (iter root).

(** A [tag] element whose [k] attribute is [key]. *)
Definition has_tag_key (key : str) (t : element) : bool :=
  str_eqb (tag t) "tag"
  && match get t "k" with
     | Some k => str_eqb k key
     | None => false
     end.

(** The element has a tag child with that key. *)
Definition carries (key : str) (e : element) : bool :=
  existsb (has_tag_key key) (children e).

Definition carries_both (e : element) : bool :=
  carries addr_housenumber e && carries addr_street e.

(** The [v] attribute of the last tag with that key among [ts]. *)
Definition last_value (key : str) (ts : list element) : option (option str) :=
  fold_left (fun acc t => if has_tag_key key t then Some (get t "v") else acc)
            ts None.

(** The [v] attribute of the element's last tag child with that key. *)
Definition tag_value (key : str) (e : element) : option (option str) :=
  last_value key (children e).

(** [housenumber + " " + street], lowercased, for an element that carries
    both tags with a value each. *)
Definition address_string (e : element) : option str :=
  match tag_value addr_housenumber e, tag_value addr_street e with
  | Some (Some housenumber), Some (Some street) =>
      Some (lower (housenumber ++ str_of_string " " ++ street))
  | _, _ => None
  end.

Definition element_id (e : element) : str := str_of_option (get e "id").

(** Every address tag of a node or way has a [v] attribute, as in an OSM
    export. *)
Definition tags_have_values (root : element) : Prop :=
  forall e t, In e (node_way_elements root) -> In t (children e) ->
              is_addr_tag t = true -> get t "v" <> None.

(** What identifies an element apart from its children. *)
Definition label (e : element) : str * dict str := (tag e, attrib e).

(** Every element of [t] whose [id] attribute is [id] is still in [t'] at
    the same place, with the same tag and attributes and with children of
    the same tags and attributes: no child was added to it. *)
Definition untouched (id : str) (t t' : element) : Prop :=
  forall (q : path) (e : element),
    get_at t q = Some e -> get e "id" = Some id ->
    exists e', get_at t' q = Some e' /\ label e' = label e
               /\ map label (children e') = map label (children e).

(** Every element of [t] is still in [t'] at the same place, with the same
    tag and attributes and with no fewer children. *)
Definition grown (t t' : element) : Prop :=
  forall (q : path) (e : element),
    get_at t q = Some e ->
    exists e', get_at t' q = Some e' /\ label e' = label e
               /\ length (children e) <= length (children e').

(** Nothing makes [append_xml] raise: for every entry whose address is a key
    of [input_dict], the identifier holds no single quote, the value to
    store is accepted by lxml, and the element that [find] returns has a
    child. *)
Definition raises_nothing
    (element_path : element -> str -> result (option path))
    (xml_tree : element) (element_dict input_dict : dict str)
  : Prop :=
  forall id address units,
    In (id, address) element_dict ->
    dict_get input_dict address = Some units ->
    existsb (Ascii.eqb "'"%char) id = false
    /\ xml_compatible units = true
    /\ forall p e, find element_path xml_tree id = Ok (Some p) ->
                   get_at xml_tree p = Some e -> children e <> [].

(** The identifiers of the entries whose address is a key of [input_dict]
    hold no single quote: their paths are [.//*[@id='id']]. *)
Definition plain_ids (element_dict input_dict : dict str) : Prop :=
  forall id address,
    In (id, address) element_dict ->
    dict_in input_dict address = true ->
    existsb (Ascii.eqb "'"%char) id = false.

(** The element has the identifier of an entry whose address is a key of
    [input_dict]: [append_xml] looks for it. *)
Definition target (element_dict input_dict : dict str) (e : element) : Prop :=
  exists id address,
    In (id, address) element_dict
    /\ dict_in input_dict address = true
    /\ get e "id" = Some id.

(** Every element of [t] that satisfies [P] is still in [t'] at the same
    place, with the same tag and attributes and with children of the same
    tags and attributes. *)
Definition kept (P : element -> Prop) (t t' : element) : Prop :=
  forall (q : path) (e : element),
    get_at t q = Some e -> P e ->
    exists e', get_at t' q = Some e' /\ label e' = label e
               /\ map label (children e') = map label (children e).

(** Induction on elements, with the children as induction hypotheses. *)
Section ElementInduction.
Variable P : element -> Prop.
Hypothesis step : forall t a cs, Forall P cs -> P (Element t a cs).

Fixpoint element_induction (e : element) : P e :=
  match e with
  | Element t a cs =>
      step t a
           ((fix all (cs : list element) : Forall P cs :=
               match cs with
               | [] => Forall_nil P
               | c :: cs' => Forall_cons c (element_induction c) (all cs')
               end) cs)
  end.
End ElementInduction.

(** The expansion of a token: its entry in the table, or the token. *)
Definition expand (t : str) : str :=
  match dict_get street_types_lower t with
  | Some v => v
  | None => t
  end.

(** The street tokens with the first and the last one expanded. *)
Definition expand_ends (street_parts : list str) : list str :=
  match street_parts with
  | [] => []
  | [p] => [expand p]
  | p :: rest => expand p :: removelast rest ++ [expand (last rest [])]
  end.

(** A character of a result of [parse_address]: lowercase, and a word
    character, whitespace or the comma. *)
Definition result_char (c : ascii) : bool :=
  (c_isword c || c_isspace c || Ascii.eqb c ","%char)
  && Ascii.eqb (c_lower c) c.

(** The entry a CSV row gives: the normalised first column, when it has at
    least 5 characters, and the third column. *)
Definition row_entry (row : list str) : option (str * str) :=
  match row with
  | [] => None
  | raw :: _ =>
      match parse_address raw with
      | Ok address =>
          if length address <? 5 then None
          else match nth_error row 2 with
               | Some units => Some (address, units)
               | None => None
               end
      | Raise _ => None
      end
  end.

(** A CSV row that raises nothing: it is empty, or its first column
    normalises and the address is short or a third column is there. *)
Definition row_ok (row : list str) : bool :=
  match row with
  | [] => true
  | raw :: _ =>
      match parse_address raw with
      | Ok address => (length address <? 5) || (3 <=? length row)
      | Raise _ => false
      end
  end.

(** Python's [<] on the keys of two entries. *)
Definition key_lt (x y : str * str) : Prop :=
  str_compare (fst x) (fst y) = Lt.

(** What a CSV row does to the dictionary when it raises nothing. *)
Definition row_step (dwelling_dict : dict str) (row : list str) : dict str :=
  match row_entry row with
  | Some (address, units) => dict_set dwelling_dict address units
  | None => dwelling_dict
  end.

(** [<=] on tuples, as a relation. *)
Definition item_le (x y : str * str) : Prop := item_leb x y = true.

(** One step of a loop of conditional assignments: [d[k] = v] when [f]
    gives an entry for [x]. *)
Definition assign {A V : Type} (f : A -> option (str * V)) (d : dict V) (x : A)
  : dict V :=
  match f x with
  | Some (k, v) => dict_set d k v
  | None => d
  end.

(** ** Sample documents *)

Definition tag_kv (k v : string) : element :=
  Element "tag" [item "k" k; item "v" v] [].

(** A node without tags and a way with an address share the identifier 7
    (nodes and ways are numbered independently in OSM). *)
Definition osm_node7_way7 : element :=
  Element "osm" []
    [ Element "node" [item "id" "7"; item "lat" "45.5"; item "lon" "-122.6"] [];
      Element "way" [item "id" "7"]
        [ Element "nd" [item "ref" "7"] [];
          tag_kv "addr:housenumber" "100";
          tag_kv "addr:street" "Main Street" ] ].

(** A node and a way with an address each share the identifier 7. *)
Definition osm_two_addresses : element :=
  Element "osm" []
    [ Element "node" [item "id" "7"]
        [ tag_kv "addr:housenumber" "100"; tag_kv "addr:street" "Main Street" ];
      Element "way" [item "id" "7"]
        [ tag_kv "addr:housenumber" "200"; tag_kv "addr:street" "Oak Avenue" ] ].

(** One node with an address, and one without. *)
Definition osm_one_address : element :=
  Element "osm" []
    [ Element "node" [item "id" "7"]
        [ tag_kv "addr:housenumber" "100"; tag_kv "addr:street" "Main Street" ];
      Element "node" [item "id" "8"]
        [ tag_kv "addr:housenumber" "12"; tag_kv "addr:street" "Elm Street" ] ].

Definition records_main_street : dict str := [item "100 main street" "4"].

(** A document in which an identifier holds a single quote: pasted into the
    path it reads [.//*[@id='8'][@id='8']]. *)
Definition quoted_id : str := str_of_string "8'][@id='8".

Definition osm_quoted_id : element :=
  Element "osm" []
    [ Element "node" [item "id" "8"]
        [ tag_kv "addr:housenumber" "12"; tag_kv "addr:street" "Elm Street" ];
      Element "node" [(str_of_string "id", quoted_id)]
        [ tag_kv "addr:housenumber" "100"; tag_kv "addr:street" "Main Street" ] ].

Definition osm_quoted_id_dict : dict str :=
  [item "8" "12 elm street"; (quoted_id, str_of_string "100 main street")].

(** [osm_quoted_id] with the tag [dwelling_units = 4] on the node [8]. *)
Definition osm_quoted_id_written : element :=
  Element "osm" []
    [ Element "node" [item "id" "8"]
        [ tag_kv "addr:housenumber" "12"; tag_kv "addr:street" "Elm Street";
          tag_kv "dwelling_units" "4" ];
      Element "node" [(str_of_string "id", quoted_id)]
        [ tag_kv "addr:housenumber" "100"; tag_kv "addr:street" "Main Street" ] ].

(** ** Notions used in the proofs *)

(** A character that [clean] leaves in place and [split] keeps in a token. *)
Definition c_token (c : ascii) : bool :=
  c_isword c && Ascii.eqb (c_lower c) c.

(** A token of a cleaned address. *)
Definition token (t : str) : Prop := t <> [] /\ forallb c_token t = true.

Definition space : str := str_of_string " ".

Definition letter_a : ascii := "a"%char.

(** What every expansion of the table is: a token that is neither a unit
    designator nor itself a key of the table. *)
Definition expansion (v : str) : bool :=
  negb (length v =? 0) && forallb c_token v
  && negb (isdigit v || (length v =? 1))
  && negb (dict_in street_types_lower (lower v)).

(** Street tokens that [parse_address] would leave as they are. *)
Definition settled (sp : list str) : Prop :=
  sp <> [] /\ unit_detected sp = false
  /\ dict_in street_types_lower (lower (hd [] sp)) = false
  /\ dict_in street_types_lower (lower (last_part sp)) = false.

Definition short_row_file : list (list str) :=
  [ [str_of_string "address"; str_of_string "permit"; str_of_string "units"];
    [str_of_string "123 Main St"; str_of_string "B-1"] ].

(** [n] entries with the identifiers 1 to [n]. *)
Definition numbered (n : nat) : dict str :=
  map (fun i => (str_of_string (NilEmpty.string_of_uint (Nat.to_uint i)),
                 str_of_string "100 main street"))
      (seq 1 n).

Definition is_some {A : Type} (o : option A) : bool :=
  match o with Some _ => true | None => false end.

(** The dictionary [tags] built from the selected tag children. *)
Definition tag_step (tags : dict (option str)) (t : element) : dict (option str) :=
  dict_set tags (str_of_option (get t "k")) (get t "v").

Definition b2n (b : bool) : nat := if b then 1 else 0.

(** What one element contributes to the dictionary when nothing is raised. *)
Definition entry_step (address_dict : dict str) (e : element) : dict str :=
  match address_string e with
  | Some address => dict_set address_dict (element_id e) address
  | None => address_dict
  end.

(** No entry of [items] with the key [id] has an address of [input_dict]. *)
Definition quiet (input_dict : dict str) (id : str) (items : list (str * str)) : Prop :=
  forall address', In (id, address') items -> dict_in input_dict address' = false.

(** A file in which the address ["123 main street"] comes twice. *)
Definition two_rows_file : list (list str) :=
  [ [str_of_string "address"; str_of_string "permit"; str_of_string "units"];
    [str_of_string "123 Main St"; str_of_string "B-1"; str_of_string "2"];
    [str_of_string "9 Elm Ave"; str_of_string "B-2"; str_of_string "1"];
    [str_of_string "123 main st."; str_of_string "B-3"; str_of_string "6"] ].

Definition two_rows_dict : dict str :=
  [item "123 main street" "6"; item "9 elm avenue" "1"].

(** * Strings: facts used below *)

Ltac each_char c :=
  destruct c as [[] [] [] [] [] [] [] []]; vm_compute; try reflexivity;
  try discriminate; auto.

Lemma c_lower_idem (c : ascii) : c_lower (c_lower c) = c_lower c.
Proof. each_char c. Qed.

Lemma c_isspace_lower (c : ascii) : c_isspace (c_lower c) = c_isspace c.
Proof. each_char c. Qed.

Lemma c_isword_lower (c : ascii) : c_isword (c_lower c) = c_isword c.
Proof. each_char c. Qed.

Lemma c_isword_not_space (c : ascii) : c_isword c = true -> c_isspace c = false.
Proof. each_char c. Qed.

Lemma str_eqb_eq (a b : str) : str_eqb a b = true <-> a = b.
Proof.
  revert b; induction a as [|x a IH]; destruct b as [|y b]; simpl;
    try (split; [discriminate | discriminate]); try tauto.
  rewrite andb_true_iff, Ascii.eqb_eq, IH.
  split; [intros [-> ->]; reflexivity | intros H; inversion H; auto].
Qed.

Lemma str_eqb_refl (a : str) : str_eqb a a = true.
Proof. apply str_eqb_eq; reflexivity. Qed.

Lemma str_eqb_neq (a b : str) : str_eqb a b = false <-> a <> b.
Proof.
  rewrite <- str_eqb_eq. destruct (str_eqb a b); split; congruence.
Qed.

Lemma c_token_word c : c_token c = true -> c_isword c = true.
Proof. unfold c_token; rewrite andb_true_iff; tauto. Qed.

Lemma c_token_lower c : c_token c = true -> c_lower c = c.
Proof. unfold c_token; rewrite andb_true_iff, Ascii.eqb_eq; tauto. Qed.

Lemma c_token_not_space c : c_token c = true -> c_isspace c = false.
Proof. intros H; apply c_isword_not_space, c_token_word, H. Qed.

Lemma lower_token_chars (t : str) : forallb c_token t = true -> lower t = t.
Proof.
  induction t as [|c t IH]; simpl; [reflexivity|].
  rewrite andb_true_iff; intros [Hc Ht].
  rewrite (c_token_lower _ Hc), (IH Ht); reflexivity.
Qed.

Lemma lower_token (t : str) : token t -> lower t = t.
Proof. intros [_ H]; apply lower_token_chars, H. Qed.

Lemma lower_app (a b : str) : lower (a ++ b) = lower a ++ lower b.
Proof. apply map_app. Qed.

Lemma re_sub_punct_app (a b : str) :
  re_sub_punct (a ++ b) = re_sub_punct a ++ re_sub_punct b.
Proof. apply filter_app. Qed.

Lemma re_sub_punct_token (t : str) : token t -> re_sub_punct t = t.
Proof.
  intros [_ H]. induction t as [|c t IH]; simpl in *; [reflexivity|].
  apply andb_true_iff in H as [Hc Ht].
  rewrite (c_token_word _ Hc); simpl. rewrite (IH Ht); reflexivity.
Qed.

Lemma join_cons (sep p q : str) (rest : list str) :
  join sep (p :: q :: rest) = p ++ sep ++ join sep (q :: rest).
Proof. reflexivity. Qed.

(** *** Joined tokens are left alone by [lower], [strip] and the
    punctuation filter, and [split] gives the tokens back. *)

Lemma lower_join (ts : list str) :
  Forall token ts -> lower (join space ts) = join space ts.
Proof.
  induction 1 as [|t ts Ht Hts IH]; [reflexivity|].
  destruct ts as [|t2 ts]; [apply lower_token, Ht|].
  rewrite join_cons, !lower_app, (lower_token Ht), IH. reflexivity.
Qed.

Lemma re_sub_punct_join (ts : list str) :
  Forall token ts -> re_sub_punct (join space ts) = join space ts.
Proof.
  induction 1 as [|t ts Ht Hts IH]; [reflexivity|].
  destruct ts as [|t2 ts]; [apply re_sub_punct_token, Ht|].
  rewrite join_cons, !re_sub_punct_app, (re_sub_punct_token Ht), IH.
  reflexivity.
Qed.

Lemma split_cons (c c2 : ascii) (r : str) :
  split (c :: c2 :: r) =
  if c_isspace c then split (c2 :: r)
  else if c_isspace c2 then [c] :: split (c2 :: r)
       else match split (c2 :: r) with
            | t0 :: ts => (c :: t0) :: ts
            | [] => [[c]]
            end.
Proof. reflexivity. Qed.

Lemma token_cons (c c2 : ascii) (t : str) :
  token (c :: c2 :: t) ->
  c_isspace c = false /\ c_isspace c2 = false /\ token (c2 :: t).
Proof.
  intros [_ H]. simpl in H.
  apply andb_true_iff in H as [Hc H]. pose proof H as H'.
  apply andb_true_iff in H as [Hc2 _].
  repeat split; auto using c_token_not_space. discriminate.
Qed.

Lemma token_single (c : ascii) : token [c] -> c_isspace c = false.
Proof.
  intros [_ H]. simpl in H. apply andb_true_iff in H as [Hc _].
  apply c_token_not_space, Hc.
Qed.

Lemma split_token_sep (t : str) :
  token t -> forall s, split (t ++ space ++ s) = t :: split s.
Proof.
  intros Ht s. induction t as [|c t IH]; [destruct Ht; congruence|].
  destruct t as [|c2 t].
  - simpl. rewrite (token_single Ht). reflexivity.
  - destruct (token_cons Ht) as (Hc & Hc2 & Ht').
    cbn [app] in *. rewrite split_cons, Hc, Hc2, (IH Ht'). reflexivity.
Qed.

Lemma split_token (t : str) : token t -> split t = [t].
Proof.
  intros Ht. induction t as [|c t IH]; [destruct Ht; congruence|].
  destruct t as [|c2 t].
  - simpl. rewrite (token_single Ht). reflexivity.
  - destruct (token_cons Ht) as (Hc & Hc2 & Ht').
    rewrite split_cons, Hc, Hc2, (IH Ht'). reflexivity.
Qed.

Lemma split_join (ts : list str) :
  Forall token ts -> split (join space ts) = ts.
Proof.
  induction 1 as [|t ts Ht Hts IH]; [reflexivity|].
  destruct ts as [|t2 ts]; [apply split_token, Ht|].
  rewrite join_cons, (split_token_sep Ht), IH. reflexivity.
Qed.

Lemma In_firstn {A : Type} (n : nat) (l : list A) (x : A) :
  In x (firstn n l) -> In x l.
Proof.
  intros H. rewrite <- (firstn_skipn n l). apply in_or_app. left. exact H.
Qed.

Lemma last_app_cons {A : Type} (a b : list A) (x d : A) :
  last (a ++ x :: b) d = last (x :: b) d.
Proof.
  induction a as [|y a IH]; [reflexivity|].
  cbn [app]. rewrite <- IH. destruct (a ++ x :: b) eqn:E; [|reflexivity].
  destruct a; discriminate.
Qed.

Lemma last_forallb {A : Type} (P : A -> bool) (l : list A) (d : A) :
  l <> [] -> forallb P l = true -> P (last l d) = true.
Proof.
  induction l as [|x l IH]; [congruence|]. intros _ H.
  simpl in H. apply andb_true_iff in H as [Hx Hl].
  destruct l as [|y l]; [exact Hx|]. apply IH; [discriminate | exact Hl].
Qed.

Lemma strip_solid (s : str) :
  c_isspace (hd letter_a s) = false ->
  c_isspace (last s letter_a) = false ->
  strip s = s.
Proof.
  intros Hhd Hlast. unfold strip.
  assert (Hl : lstrip s = s).
  { destruct s as [|c s]; [reflexivity|]. simpl in *. rewrite Hhd. reflexivity. }
  rewrite Hl. unfold rstrip.
  destruct s as [|c s]; [reflexivity|].
  destruct (exists_last (l := c :: s)) as (r & z & E); [discriminate|].
  rewrite E in *. rewrite last_last in Hlast.
  rewrite rev_unit. simpl. rewrite Hlast. simpl.
  rewrite rev_involutive. reflexivity.
Qed.

Lemma token_hd (t : str) (r : str) :
  token t -> c_isspace (hd letter_a (t ++ r)) = false.
Proof.
  intros [Hne H]. destruct t as [|c t]; [congruence|].
  simpl in *. apply andb_true_iff in H as [Hc _].
  apply c_token_not_space, Hc.
Qed.

Lemma token_last (t : str) : token t -> c_isspace (last t letter_a) = false.
Proof.
  intros [Hne H]. apply c_token_not_space.
  apply (last_forallb c_token); assumption.
Qed.

Lemma join_last (ts : list str) :
  Forall token ts -> ts <> [] ->
  c_isspace (last (join space ts) letter_a) = false.
Proof.
  induction 1 as [|t ts Ht Hts IH]; [congruence|]. intros _.
  destruct ts as [|t2 ts]; [apply token_last, Ht|].
  rewrite join_cons.
  assert (IH' := IH ltac:(discriminate)).
  destruct (join space (t2 :: ts)) as [|c r] eqn:E.
  - exfalso. inversion Hts as [|? ? [Hne _] _]; subst.
    destruct t2; [congruence|]. destruct ts; discriminate.
  - replace (t ++ space ++ c :: r) with ((t ++ space) ++ c :: r)
      by (rewrite <- app_assoc; reflexivity).
    rewrite last_app_cons. exact IH'.
Qed.

Lemma strip_join (ts : list str) :
  Forall token ts -> strip (join space ts) = join space ts.
Proof.
  intros H. destruct ts as [|t ts]; [reflexivity|].
  apply strip_solid.
  - inversion H as [|? ? Ht Hts]; subst.
    destruct ts; [rewrite <- (app_nil_r t) | rewrite join_cons];
      apply token_hd, Ht.
  - apply join_last; [exact H | discriminate].
Qed.

(** A string of joined tokens is its own cleaned form and splits into the
    tokens it was joined from. *)
Lemma clean_join (ts : list str) :
  Forall token ts -> clean (join space ts) = join space ts.
Proof.
  intros H. unfold clean.
  rewrite (lower_join H), (strip_join H). apply re_sub_punct_join, H.
Qed.

(** *** What [split] yields on a cleaned address *)

Lemma In_lstrip (s : str) (c : ascii) : In c (lstrip s) -> In c s.
Proof.
  induction s as [|x s IH]; simpl; [tauto|].
  destruct (c_isspace x); simpl; tauto.
Qed.

Lemma In_strip (s : str) (c : ascii) : In c (strip s) -> In c s.
Proof.
  unfold strip, rstrip. intros H.
  apply In_lstrip. apply in_rev. apply In_lstrip. apply in_rev in H. exact H.
Qed.

Lemma clean_chars (address : str) (c : ascii) :
  In c (clean address) -> c_isspace c = true \/ c_token c = true.
Proof.
  unfold clean, re_sub_punct. rewrite filter_In. intros [Hin Hc].
  apply In_strip in Hin. unfold lower in Hin. apply in_map_iff in Hin.
  destruct Hin as (c0 & <- & _).
  apply orb_true_iff in Hc as [Hw | Hs]; [right | left; exact Hs].
  unfold c_token. rewrite Hw, c_lower_idem, Ascii.eqb_refl. reflexivity.
Qed.

Lemma token_cons_intro (c : ascii) (t : str) :
  c_token c = true -> (t = [] \/ token t) -> token (c :: t).
Proof.
  intros Hc Ht. split; [discriminate|]. simpl. rewrite Hc. simpl.
  destruct Ht as [-> | [_ Ht]]; [reflexivity | exact Ht].
Qed.

Lemma split_tokens (s : str) :
  (forall c, In c s -> c_isspace c = true \/ c_token c = true) ->
  Forall token (split s).
Proof.
  induction s as [|c s IH]; intros H; [constructor|].
  assert (IH' : Forall token (split s)) by (apply IH; intros; apply H; right; assumption).
  destruct s as [|c2 s].
  - simpl. destruct (c_isspace c) eqn:Hc; [constructor|].
    destruct (H c (or_introl eq_refl)) as [Hs | Ht]; [congruence|].
    constructor; [|constructor]. apply token_cons_intro; auto.
  - rewrite split_cons. destruct (c_isspace c) eqn:Hc; [exact IH'|].
    destruct (H c (or_introl eq_refl)) as [Hs | Ht]; [congruence|].
    destruct (c_isspace c2).
    + constructor; [apply token_cons_intro; auto | exact IH'].
    + destruct (split (c2 :: s)) as [|t0 ts].
      * constructor; [apply token_cons_intro; auto | constructor].
      * inversion IH'; subst. constructor; [|assumption].
        apply token_cons_intro; auto.
Qed.

Lemma split_clean_tokens (address : str) : Forall token (split (clean address)).
Proof. apply split_tokens. intros c; apply clean_chars. Qed.

Lemma split_nil_blank (s : str) : split s = [] -> forallb c_isspace s = true.
Proof.
  induction s as [|c s IH]; [reflexivity|]. intros H.
  destruct s as [|c2 s].
  - simpl in *. destruct (c_isspace c); [reflexivity | discriminate].
  - rewrite split_cons in H.
    change (forallb c_isspace (c :: c2 :: s))
      with (c_isspace c && forallb c_isspace (c2 :: s)).
    destruct (c_isspace c); [rewrite (IH H); reflexivity|].
    destruct (c_isspace c2); [discriminate|].
    destruct (split (c2 :: s)); discriminate.
Qed.

Lemma lstrip_blank (s : str) : forallb c_isspace s = true -> lstrip s = [].
Proof.
  induction s as [|c s IH]; [reflexivity|]. simpl.
  intros H. apply andb_true_iff in H as [-> Hs]. apply IH, Hs.
Qed.

Lemma clean_blank (s : str) : forallb c_isspace s = true -> clean s = [].
Proof.
  intros H. unfold clean, strip.
  assert (Hl : forallb c_isspace (lower s) = true).
  { unfold lower. rewrite forallb_forall in *. intros c Hc.
    apply in_map_iff in Hc as (c0 & <- & Hc0).
    rewrite c_isspace_lower. apply H, Hc0. }
  rewrite (lstrip_blank _ Hl). reflexivity.
Qed.

(** *** The abbreviation table *)

Lemma street_types_lower_expansions :
  forallb (fun kv => expansion (snd kv)) street_types_lower = true.
Proof. vm_compute. reflexivity. Qed.

Lemma dict_get_forallb {V : Type} (P : V -> bool) (d : dict V) (k : str) (v : V) :
  forallb (fun kv => P (snd kv)) d = true -> dict_get d k = Some v -> P v = true.
Proof.
  induction d as [|[k' v'] d IH]; simpl; [discriminate|].
  rewrite andb_true_iff. intros [Hv Hd].
  destruct (str_eqb k' k); [intros [= <-]; exact Hv | apply IH, Hd].
Qed.

Lemma expansion_token (v : str) : expansion v = true -> token v.
Proof.
  unfold expansion. rewrite !andb_true_iff. intros [[[Hlen Hall] _] _].
  split; [|exact Hall]. destruct v; [discriminate | discriminate].
Qed.

Lemma expansion_not_unit (v : str) :
  expansion v = true -> isdigit v || (length v =? 1) = false.
Proof.
  unfold expansion. rewrite !andb_true_iff. intros [[_ H] _].
  apply negb_true_iff, H.
Qed.

Lemma expansion_not_key (v : str) :
  expansion v = true -> dict_in street_types_lower (lower v) = false.
Proof.
  unfold expansion. rewrite !andb_true_iff. intros [_ H].
  apply negb_true_iff, H.
Qed.

Lemma street_types_lower_item (p v : str) :
  dict_item street_types_lower p = Ok v -> expansion v = true.
Proof.
  unfold dict_item. destruct (dict_get street_types_lower p) eqn:E; [|discriminate].
  intros [= <-]. exact (dict_get_forallb expansion _ _ street_types_lower_expansions E).
Qed.

(** *** The two replacements *)

Lemma expand_first_spec (sp sp' : list str) :
  expand_first sp = Ok sp' ->
  exists p p' rest,
    sp = p :: rest /\ sp' = p' :: rest
    /\ dict_in street_types_lower (lower p') = false
    /\ (p' = p \/ expansion p' = true).
Proof.
  destruct sp as [|p rest]; [discriminate|]. unfold expand_first.
  destruct (dict_in street_types_lower (lower p)) eqn:Hin.
  - destruct (dict_item street_types_lower p) as [v|] eqn:Hv; [|discriminate].
    intros [= <-]. exists p, v, rest.
    pose proof (street_types_lower_item _ Hv) as Hx.
    auto using expansion_not_key.
  - intros [= <-]. exists p, p, rest. auto.
Qed.

Lemma expand_last_spec (sp sp' : list str) :
  expand_last sp = Ok sp' ->
  exists front q q',
    sp = front ++ [q] /\ sp' = front ++ [q']
    /\ dict_in street_types_lower (lower q') = false
    /\ (q' = q \/ expansion q' = true).
Proof.
  destruct sp as [|p0 rest0]; [discriminate|].
  destruct (exists_last (l := p0 :: rest0)) as (front & q & E); [discriminate|].
  rewrite E. unfold expand_last, last_part.
  destruct (front ++ [q]) as [|x y] eqn:E2; [destruct front; discriminate|].
  rewrite <- E2. rewrite last_last, removelast_last.
  destruct (dict_in street_types_lower (lower q)) eqn:Hin.
  - destruct (dict_item street_types_lower q) as [v|] eqn:Hv; [|discriminate].
    intros [= <-]. exists front, q, v.
    pose proof (street_types_lower_item _ Hv) as Hx.
    auto using expansion_not_key.
  - intros [= <-]. exists front, q, q. auto.
Qed.

Lemma unit_detected_two (a : str) (front : list str) (q : str) :
  unit_detected (a :: front ++ [q]) = isdigit q || (length q =? 1).
Proof.
  unfold unit_detected, last_part.
  change (a :: front ++ [q]) with ((a :: front) ++ [q]).
  rewrite last_last, length_app.
  assert (H : (1 <? (length (a :: front) + length [q])) = true)
    by (apply Nat.ltb_lt; simpl; lia).
  rewrite H. reflexivity.
Qed.

(** *** The three ways through [parse_address] *)

Lemma join_number_name (street_number : str) (sp : list str) :
  sp <> [] ->
  join space [street_number; join space sp] = join space (street_number :: sp).
Proof. destruct sp; [congruence | reflexivity]. Qed.

Lemma parse_address_settled (street_number : str) (sp : list str) :
  Forall token (street_number :: sp) -> settled sp ->
  parse_address (join space (street_number :: sp))
  = Ok (join space (street_number :: sp)).
Proof.
  intros Htok (Hne & Hunit & Hhd & Hlast). unfold parse_address.
  rewrite (clean_join Htok), (split_join Htok), Hunit.
  destruct sp as [|p rest]; [congruence|].
  unfold expand_first. simpl hd in Hhd. rewrite Hhd.
  unfold bind, expand_last. rewrite Hlast. reflexivity.
Qed.

(** No unit number detected: the result is made of settled tokens. *)
Lemma parse_address_plain (raw x street_number : str) (sp : list str) :
  split (clean raw) = street_number :: sp ->
  unit_detected sp = false ->
  parse_address raw = Ok x ->
  exists sp', x = join space (street_number :: sp')
              /\ Forall token (street_number :: sp') /\ settled sp'.
Proof.
  intros Hsplit Hunit. unfold parse_address. rewrite Hsplit, Hunit.
  pose proof (split_clean_tokens raw) as Htok. rewrite Hsplit in Htok.
  inversion Htok as [|? ? Hnum Hsp]; subst.
  destruct (expand_first sp) as [sp1|] eqn:E1; [|discriminate].
  destruct (expand_first_spec _ E1) as (p & p' & rest & -> & -> & Hp' & Hpp).
  cbn [bind].
  destruct (expand_last (p' :: rest)) as [sp2|] eqn:E2; [|discriminate].
  destruct (expand_last_spec _ E2) as (front & q & q' & Efq & -> & Hq' & Hqq).
  intros [= <-]. exists (front ++ [q']).
  assert (Hp'tok : token p').
  { destruct Hpp as [-> | Hx]; [inversion Hsp; assumption | apply expansion_token, Hx]. }
  assert (Hq'tok : token q').
  { destruct Hqq as [-> | Hx]; [|apply expansion_token, Hx].
    assert (Hall : Forall token (front ++ [q])).
    { rewrite <- Efq. inversion Hsp; subst. constructor; assumption. }
    apply Forall_app in Hall as [_ Hq]. inversion Hq; assumption. }
  assert (Hne : front ++ [q'] <> []) by (destruct front; discriminate).
  split; [fold space; apply join_number_name, Hne|].
  destruct front as [|f front].
  - (* one street token *)
    cbn [app]. split; [constructor; [|constructor; [|constructor]]; assumption|].
    split; [discriminate|]. repeat split; assumption.
  - (* several street tokens *)
    injection Efq as -> ->.
    split.
    + constructor; [assumption|]. constructor; [assumption|].
      inversion Hsp as [|? ? _ Hrest]; subst.
      apply Forall_app in Hrest as [Hfront _].
      apply Forall_app. split; [assumption|].
      constructor; [assumption | constructor].
    + split; [discriminate|]. split; [|split].
      * cbn [app]. rewrite unit_detected_two.
        destruct Hqq as [-> | Hx]; [|apply expansion_not_unit, Hx].
        rewrite unit_detected_two in Hunit. exact Hunit.
      * exact Hp'.
      * unfold last_part.
        rewrite (last_last (f :: front) q' []). exact Hq'.
Qed.

(** A unit number detected: the result holds the comma that joins it to the
    house number. *)
Lemma parse_address_unit_comma (raw x street_number : str) (sp : list str) :
  split (clean raw) = street_number :: sp ->
  unit_detected sp = true ->
  parse_address raw = Ok x ->
  In ","%char x.
Proof.
  intros Hsplit Hunit. unfold parse_address. rewrite Hsplit, Hunit.
  destruct (expand_first _) as [sp1|]; [|discriminate]. cbn [bind].
  destruct (expand_last _) as [sp2|]; [|discriminate].
  intros [= <-]. cbn [join]. rewrite !in_app_iff. left. right. left.
  reflexivity.
Qed.

(** No token at all: the cleaned address, which is blank, is returned. *)
Lemma parse_address_blank (raw : str) :
  split (clean raw) = [] ->
  parse_address raw = Ok (clean raw) /\ parse_address (clean raw) = Ok [].
Proof.
  intros Hsplit. unfold parse_address at 1. rewrite Hsplit. split; [reflexivity|].
  unfold parse_address. rewrite (clean_blank _ (split_nil_blank _ Hsplit)).
  reflexivity.
Qed.

(** * parse_address: the claims *)

(** C3, as the code has it: [parse_address "100 Pine St Apt 4"] is
    ["100,4 pine street"].  The street tokens are [pine st apt 4]; the last
    one is numeric, so it is joined to the house number by a comma and the
    last two street tokens ([apt] and [4]) are dropped; of the remaining
    tokens [pine st] the last is then expanded to [street]. *)
Theorem parse_address_unit_suffix :
  split (clean "100 Pine St Apt 4")
  = [str_of_string "100"; str_of_string "pine"; str_of_string "st";
     str_of_string "apt"; str_of_string "4"]
  /\ unit_detected [str_of_string "pine"; str_of_string "st";
                    str_of_string "apt"; str_of_string "4"] = true
  /\ drop_last_two [str_of_string "pine"; str_of_string "st";
                    str_of_string "apt"; str_of_string "4"]
     = [str_of_string "pine"; str_of_string "st"]
  /\ parse_address "100 Pine St Apt 4" = Ok (str_of_string "100,4 pine street").
Proof. repeat split; vm_compute; reflexivity. Qed.

(** C3, as stated, fails: the result is not ["100,4 pine"]. *)
Lemma parse_address_unit_suffix_not_pine :
  parse_address "100 Pine St Apt 4" <> Ok (str_of_string "100,4 pine").
Proof. vm_compute. discriminate. Qed.

(** C4, as the code has it: ["123 Main St"] becomes ["123 main street"], and
    ["456 NE Oak Ave"] becomes ["456 northeast oak avenue"]: the token [ne]
    in first position is a key of the table and is expanded as well. *)
Theorem parse_address_abbreviations :
  parse_address "123 Main St" = Ok (str_of_string "123 main street")
  /\ parse_address "456 NE Oak Ave" = Ok (str_of_string "456 northeast oak avenue").
Proof. split; vm_compute; reflexivity. Qed.

(** C4, as stated, fails: [ne] is not left unexpanded. *)
Lemma parse_address_ne_expanded :
  parse_address "456 NE Oak Ave" <> Ok (str_of_string "456 ne oak avenue").
Proof. vm_compute. discriminate. Qed.

(** C5: [parse_address] raises [IndexError] on a single-token address and on
    an address of two street tokens the second of which is a unit number:
    [street_parts] is empty when [street_parts[0]] is read. *)
Theorem parse_address_raises :
  parse_address "100" = Raise IndexError
  /\ parse_address "100 Pine 4" = Raise IndexError.
Proof. split; vm_compute; reflexivity. Qed.

(** The replacements never fail on a non-empty list of tokens: the lookup
    key is already lowercase, so no [KeyError] arises. *)
Lemma street_types_lower_key (p : str) :
  token p -> dict_in street_types_lower (lower p) = true ->
  exists v, dict_item street_types_lower p = Ok v.
Proof.
  intros Hp. rewrite (lower_token Hp). unfold dict_in, dict_item.
  destruct (dict_get street_types_lower p) as [v|]; [eauto | discriminate].
Qed.

Lemma expand_first_ok (sp : list str) :
  Forall token sp -> sp <> [] ->
  exists sp', expand_first sp = Ok sp' /\ Forall token sp' /\ sp' <> [].
Proof.
  intros Hsp Hne. destruct sp as [|p rest]; [congruence|].
  inversion Hsp as [|? ? Hp Hrest]; subst. unfold expand_first.
  destruct (dict_in street_types_lower (lower p)) eqn:Hin.
  - destruct (street_types_lower_key Hp Hin) as [v Hv]. rewrite Hv. cbn [bind].
    exists (v :: rest). split; [reflexivity|]. split; [|discriminate].
    constructor; [|assumption].
    apply expansion_token, (street_types_lower_item _ Hv).
  - exists (p :: rest). split; [reflexivity|]. split; [assumption | discriminate].
Qed.

Lemma expand_last_ok (sp : list str) :
  Forall token sp -> sp <> [] -> exists sp', expand_last sp = Ok sp'.
Proof.
  intros Hsp Hne. destruct sp as [|p rest]; [congruence|]. unfold expand_last.
  assert (Hq : token (last_part (p :: rest))).
  { unfold last_part.
    destruct (exists_last (l := p :: rest)) as (front & q & E); [discriminate|].
    rewrite E in *. rewrite last_last.
    apply Forall_app in Hsp as [_ Hq]. inversion Hq; assumption. }
  destruct (dict_in street_types_lower (lower (last_part (p :: rest)))) eqn:Hin.
  - destruct (street_types_lower_key Hq Hin) as [v Hv]. rewrite Hv. cbn [bind].
    eauto.
  - eauto.
Qed.

(** When [parse_address] raises and when it returns: it raises exactly when
    no street token is left, that is, for a single token, or for two street
    tokens with a unit number detected; the exception is [IndexError]. *)
Lemma parse_address_raises_iff (raw : str) :
  let street_parts := tl (split (clean raw)) in
  let left_over :=
    if unit_detected street_parts then drop_last_two street_parts
    else street_parts in
  if match split (clean raw) with [] => false | _ :: _ => true end
     && (length left_over =? 0)
  then parse_address raw = Raise IndexError
  else exists x, parse_address raw = Ok x.
Proof.
  cbv zeta. unfold parse_address.
  pose proof (split_clean_tokens raw) as Htok.
  destruct (split (clean raw)) as [|street_number sp]; [simpl; eauto|].
  cbn [tl andb]. inversion Htok as [|? ? _ Hsp]; subst.
  set (left_over := if unit_detected sp then drop_last_two sp else sp).
  assert (Hleft : Forall token left_over).
  { subst left_over. destruct (unit_detected sp); [|assumption].
    unfold drop_last_two. rewrite Forall_forall in *.
    intros t Ht. apply Hsp. eapply In_firstn, Ht. }
  destruct left_over as [|p rest] eqn:E; cbn [length Nat.eqb].
  - reflexivity.
  - destruct (expand_first_ok Hleft) as (sp1 & H1 & Htok1 & Hne1); [discriminate|].
    rewrite H1. cbn [bind].
    destruct (expand_last_ok Htok1 Hne1) as (sp2 & H2).
    rewrite H2. cbn [bind]. eauto.
Qed.

(** C6, as stated, fails: ["1,4 main st apt 5"] is a result of
    [parse_address], yet parsing it gives ["14,5 main street"], and parsing
    that gives ["145 main street"]. *)
Lemma parse_address_not_idempotent :
  ~ (forall raw x : str,
        parse_address raw = Ok x ->
        (y <- parse_address x ;; parse_address y) = parse_address x).
Proof.
  intros H.
  specialize (H (str_of_string "1 main st apt 5 apt 4")
                (str_of_string "1,4 main st apt 5") ltac:(vm_compute; reflexivity)).
  vm_compute in H. discriminate H.
Qed.

(** The canonical string with a unit suffix that the claim C6 names is not a
    fixed point either: the comma is removed as punctuation. *)
Lemma parse_address_unit_suffix_again :
  parse_address "100,4 pine street" = Ok (str_of_string "1004 pine street").
Proof. vm_compute. reflexivity. Qed.

(** A result of [parse_address] that is not blank and holds no comma is a
    fixed point. *)
Lemma parse_address_fixed_point (raw x : str) :
  parse_address raw = Ok x ->
  ~ In ","%char x ->
  split (clean raw) <> [] ->
  parse_address x = Ok x.
Proof.
  intros Hx Hcomma Hne.
  destruct (split (clean raw)) as [|street_number sp] eqn:Hsplit; [congruence|].
  destruct (unit_detected sp) eqn:Hunit.
  - exfalso. apply Hcomma. eapply parse_address_unit_comma; eassumption.
  - destruct (parse_address_plain _ Hsplit Hunit Hx) as (sp' & -> & Htok & Hset).
    apply parse_address_settled; assumption.
Qed.

(** * extract_csv_data *)

Lemma parse_address_exn (raw : str) (e : exn) :
  parse_address raw = Raise e -> e = IndexError.
Proof.
  pose proof (parse_address_raises_iff raw) as H. cbv zeta in H.
  destruct (_ && _) in H.
  - rewrite H. congruence.
  - destruct H as [x ->]. discriminate.
Qed.

Lemma getitem_exn {A : Type} (l : list A) (i : nat) (e : exn) :
  getitem l i = Raise e -> e = IndexError.
Proof. unfold getitem. destruct (nth_error l i); congruence. Qed.

Lemma csv_row_exn (d : dict str) (row : list str) (e : exn) :
  csv_row d row = Raise e -> e = IndexError.
Proof.
  destruct row as [|raw rest]; [discriminate|]. unfold csv_row, getitem at 1.
  cbn [nth_error bind].
  destruct (parse_address raw) as [address|e'] eqn:Hp; cbn [bind].
  - destruct (length address <? 5); [discriminate|].
    destruct (getitem (raw :: rest) 2) eqn:Hg; cbn [bind]; [discriminate|].
    intros [= <-]. eapply getitem_exn, Hg.
  - intros [= <-]. eapply parse_address_exn, Hp.
Qed.

Lemma csv_rows_raise (rows : list (list str)) (row : list str) :
  In row rows ->
  (forall d, csv_row d row = Raise IndexError) ->
  forall d, csv_rows d rows = Raise IndexError.
Proof.
  intros Hin Hrow. induction rows as [|row0 rows IH]; [contradiction|].
  intros d. cbn [csv_rows].
  destruct (csv_row d row0) as [d'|e] eqn:E; cbn [bind].
  - destruct Hin as [-> | Hin]; [rewrite Hrow in E; discriminate|].
    apply IH, Hin.
  - f_equal. eapply csv_row_exn, E.
Qed.

(** C9: a row that is not empty, has fewer than three columns and whose
    first column normalises to an address of length at least 5 is not
    skipped: reading its column 2 raises [IndexError], and so does
    [extract_csv_data] on any file that holds such a row after the header. *)
Theorem extract_csv_data_short_row
    (header : list str) (rows : list (list str))
    (row : list str) (raw : str) (rest : list str) (address : str) :
  In row rows ->
  row = raw :: rest ->
  length row < 3 ->
  parse_address raw = Ok address ->
  5 <= length address ->
  getitem row 2 = Raise IndexError
  /\ (forall d, csv_row d row = Raise IndexError)
  /\ extract_csv_data (header :: rows) = Raise IndexError.
Proof.
  intros Hin -> Hlen Hparse Hfive.
  assert (Hget : getitem (raw :: rest) 2 = Raise IndexError).
  { unfold getitem.
    destruct (nth_error (raw :: rest) 2) eqn:E; [|reflexivity].
    assert (Hlt : 2 < length (raw :: rest))
      by (apply nth_error_Some; congruence). lia. }
  assert (Hrow : forall d, csv_row d (raw :: rest) = Raise IndexError).
  { intros d. unfold csv_row, getitem at 1. cbn [nth_error bind].
    rewrite Hparse. cbn [bind].
    replace (length address <? 5) with false
      by (symmetry; apply Nat.ltb_ge; exact Hfive).
    rewrite Hget. reflexivity. }
  repeat split; [exact Hget | exact Hrow |].
  unfold extract_csv_data. rewrite (@csv_rows_raise rows _ Hin Hrow). reflexivity.
Qed.

Lemma extract_csv_data_short_row_witness :
  extract_csv_data short_row_file = Raise IndexError.
Proof.
  refine (proj2 (proj2 (@extract_csv_data_short_row
            (hd [] short_row_file) (tl short_row_file)
            [str_of_string "123 Main St"; str_of_string "B-1"]
            (str_of_string "123 Main St") [str_of_string "B-1"]
            (str_of_string "123 main street") _ _ _ _ _))).
  - simpl. left. reflexivity.
  - reflexivity.
  - simpl. lia.
  - vm_compute. reflexivity.
  - simpl. lia.
Defined.

(** * map_addresses *)

Section MapPublisherFacts.
Variable coord : Type.
Variable geocode : str -> option (coord * coord).

Lemma markers_of_length (items : list (str * str)) :
  length (markers_of geocode items) <= length items.
Proof.
  induction items as [|[id address] items IH]; simpl; [lia|].
  destruct (geocode address); simpl; lia.
Qed.

(** The loop takes entries while the counter is at most [max_addresses];
    every entry taken adds one to the counter, whether it geocodes or not. *)
Lemma map_loop_spec (items : list (str * str)) :
  forall (mapped_addresses : nat) (m : list (marker coord)),
    mapped_addresses <= S max_addresses ->
    map_loop geocode items mapped_addresses m
    = (Nat.min (mapped_addresses + length items) (S max_addresses),
       m ++ markers_of geocode (firstn (S max_addresses - mapped_addresses) items)).
Proof.
  induction items as [|[id address] items IH]; intros n m Hn.
  - simpl. rewrite firstn_nil, app_nil_r. f_equal; lia.
  - cbn [map_loop]. destruct (max_addresses <? n) eqn:Hcap.
    + apply Nat.ltb_lt in Hcap. assert (n = S max_addresses) as -> by lia.
      rewrite Nat.sub_diag. simpl firstn. simpl markers_of.
      rewrite app_nil_r. f_equal; lia.
    + apply Nat.ltb_ge in Hcap.
      replace (S max_addresses - n) with (S (max_addresses - n)) by lia.
      cbn [firstn markers_of flat_map fst snd].
      replace (max_addresses - n) with (S max_addresses - (n + 1)) by lia.
      destruct (geocode address) as [loc|]; rewrite IH by lia.
      * rewrite <- app_assoc. f_equal; simpl length; lia.
      * f_equal; simpl length; lia.
Qed.

Lemma map_addresses_spec (address_dict : dict str) :
  map_addresses geocode address_dict
  = (Nat.min (length address_dict) (S max_addresses),
     markers_of geocode (firstn (S max_addresses) address_dict)).
Proof.
  unfold map_addresses. rewrite map_loop_spec by lia.
  rewrite Nat.sub_0_r. reflexivity.
Qed.
End MapPublisherFacts.

(** C7: with 601 entries that all geocode, [map_addresses] places 601
    markers: the test [mapped_addresses > max_addresses] lets the entry
    through while the counter is still 600. *)
Theorem map_addresses_601_markers (coord : Type) (loc : coord * coord) :
  max_addresses = 600
  /\ length (numbered 601) = 601
  /\ map_addresses (fun _ => Some loc) (numbered 601)
     = (601, map (fun kv => Marker loc (popup_text (fst kv) (snd kv)))
                 (numbered 601)).
Proof.
  split; [reflexivity|]. split; [vm_compute; reflexivity|].
  rewrite map_addresses_spec. vm_compute. reflexivity.
Qed.

(** C10: the counter is one more for every entry taken, whether or not the
    address geocodes: it ends at the number of entries, capped, whatever the
    geocoder answers; the markers are those of the entries taken that
    geocode, and no entry past the ones taken is looked at; so there can be
    fewer markers than entries counted, as for one entry that does not
    geocode. *)
Theorem map_addresses_counts_attempts
    (coord : Type) (geocode : str -> option (coord * coord))
    (address_dict : dict str) :
  let taken := firstn (S max_addresses) address_dict in
  fst (map_addresses geocode address_dict) = length taken
  /\ snd (map_addresses geocode address_dict) = markers_of geocode taken
  /\ length (snd (map_addresses geocode address_dict))
     <= fst (map_addresses geocode address_dict)
  /\ map_addresses (fun _ => @None (coord * coord))
                   [item "7" "100 main street"]
     = (1, []).
Proof.
  cbv zeta. rewrite map_addresses_spec. cbn [fst snd].
  assert (Hlen : length (firstn (S max_addresses) address_dict)
                 = Nat.min (length address_dict) (S max_addresses))
    by (rewrite length_firstn; apply Nat.min_comm).
  split; [symmetry; exact Hlen|]. split; [reflexivity|].
  split; [rewrite <- Hlen; apply markers_of_length | reflexivity].
Qed.

(** * Dictionaries: facts used below *)

Lemma dict_get_set {V : Type} (d : dict V) (k k' : str) (v : V) :
  dict_get (dict_set d k v) k' = if str_eqb k k' then Some v else dict_get d k'.
Proof.
  induction d as [|[k0 v0] d IH]; simpl; [reflexivity|].
  destruct (str_eqb k0 k) eqn:E0; simpl.
  - apply str_eqb_eq in E0 as ->. destruct (str_eqb k k'); reflexivity.
  - rewrite IH. destruct (str_eqb k0 k') eqn:E1; [|reflexivity].
    apply str_eqb_eq in E1 as ->.
    destruct (str_eqb k k') eqn:E2; [|reflexivity].
    apply str_eqb_eq in E2 as ->. rewrite str_eqb_refl in E0. discriminate.
Qed.

Lemma dict_get_set_other {V : Type} (d : dict V) (k k' : str) (v : V) :
  k <> k' -> dict_get (dict_set d k v) k' = dict_get d k'.
Proof.
  intros H. rewrite dict_get_set.
  apply str_eqb_neq in H. rewrite H. reflexivity.
Qed.

Lemma dict_get_set_same {V : Type} (d : dict V) (k : str) (v : V) :
  dict_get (dict_set d k v) k = Some v.
Proof. rewrite dict_get_set, str_eqb_refl. reflexivity. Qed.

Lemma dict_set_length {V : Type} (d : dict V) (k : str) (v : V) :
  length (dict_set d k v) = if dict_in d k then length d else S (length d).
Proof.
  unfold dict_in. induction d as [|[k0 v0] d IH]; simpl; [reflexivity|].
  destruct (str_eqb k0 k); simpl; [reflexivity|].
  rewrite IH. destruct (dict_get d k); reflexivity.
Qed.

Lemma dict_in_set {V : Type} (d : dict V) (k k' : str) (v : V) :
  dict_in (dict_set d k v) k' = str_eqb k k' || dict_in d k'.
Proof.
  unfold dict_in. rewrite dict_get_set. destruct (str_eqb k k'); reflexivity.
Qed.

(** * extract_osm_data *)

Lemma has_tag_key_addr (key : str) (t : element) :
  key = addr_housenumber \/ key = addr_street ->
  has_tag_key key t = true -> is_addr_tag t = true.
Proof.
  unfold has_tag_key, is_addr_tag. intros Hkey.
  destruct (str_eqb (tag t) "tag"); [|simpl; intros; discriminate]. cbn [andb].
  destruct (get t "k") as [k|]; [|intros; discriminate].
  intros H. apply str_eqb_eq in H as ->.
  destruct Hkey as [-> | ->]; rewrite str_eqb_refl; auto using orb_true_r.
Qed.

Lemma last_value_from (key : str) (ts : list element) (acc : option (option str)) :
  fold_left (fun acc t => if has_tag_key key t then Some (get t "v") else acc)
            ts acc
  = match last_value key ts with
    | Some o => Some o
    | None => acc
    end.
Proof.
  unfold last_value. revert acc.
  induction ts as [|t ts IH]; intros acc; [reflexivity|].
  cbn [fold_left]. rewrite IH, (IH (if has_tag_key key t then _ else None)).
  destruct (fold_left _ ts None); [reflexivity|].
  destruct (has_tag_key key t); reflexivity.
Qed.

Lemma last_value_cons (key : str) (t : element) (ts : list element) :
  last_value key (t :: ts)
  = match last_value key ts with
    | Some o => Some o
    | None => if has_tag_key key t then Some (get t "v") else None
    end.
Proof. unfold last_value at 1. cbn [fold_left]. apply last_value_from. Qed.

Lemma last_value_carries (key : str) (ts : list element) :
  is_some (last_value key ts) = existsb (has_tag_key key) ts.
Proof.
  induction ts as [|t ts IH]; [reflexivity|].
  rewrite last_value_cons. cbn [existsb]. rewrite <- IH.
  destruct (last_value key ts); simpl; [symmetry; apply orb_true_r|].
  destruct (has_tag_key key t); reflexivity.
Qed.

Lemma last_value_In (key : str) (ts : list element) (o : option str) :
  last_value key ts = Some o ->
  exists t, In t ts /\ has_tag_key key t = true /\ get t "v" = o.
Proof.
  induction ts as [|t ts IH]; [discriminate|].
  rewrite last_value_cons.
  destruct (last_value key ts) as [o'|].
  - intros [= <-]. destruct (IH eq_refl) as (t' & Hin & H). exists t'.
    split; [right; exact Hin | exact H].
  - destruct (has_tag_key key t) eqn:E; [|discriminate].
    intros [= <-]. exists t. split; [left; reflexivity | auto].
Qed.

Lemma collect_tags_get (key : str) (cs : list element) :
  key = addr_housenumber \/ key = addr_street ->
  forall acc,
    dict_get (fold_left tag_step (filter is_addr_tag cs) acc) key
    = match last_value key cs with
      | Some o => Some o
      | None => dict_get acc key
      end.
Proof.
  intros Hkey. induction cs as [|t cs IH]; intros acc; [reflexivity|].
  rewrite last_value_cons. cbn [filter].
  destruct (is_addr_tag t) eqn:Ht.
  - cbn [fold_left]. rewrite IH.
    destruct (last_value key cs); [reflexivity|].
    unfold tag_step. rewrite dict_get_set.
    unfold is_addr_tag in Ht. unfold has_tag_key. revert Ht.
    destruct (str_eqb (tag t) "tag"); [|simpl; intros; discriminate]. cbn [andb].
    destruct (get t "k") as [k|]; [|intros; discriminate].
    intros _. cbn [str_of_option]. destruct (str_eqb k key); reflexivity.
  - rewrite IH. destruct (last_value key cs); [reflexivity|].
    destruct (has_tag_key key t) eqn:E; [|reflexivity].
    rewrite (has_tag_key_addr _ Hkey E) in Ht. discriminate.
Qed.

Lemma collect_tags_length (cs : list element) :
  forall acc,
    length acc = b2n (dict_in acc addr_housenumber) + b2n (dict_in acc addr_street) ->
    let tags := fold_left tag_step (filter is_addr_tag cs) acc in
    length tags = b2n (dict_in tags addr_housenumber) + b2n (dict_in tags addr_street).
Proof.
  induction cs as [|t cs IH]; intros acc Hacc; [exact Hacc|].
  cbn [filter]. destruct (is_addr_tag t) eqn:Ht; [|apply IH, Hacc].
  cbn [fold_left]. apply IH. unfold tag_step.
  rewrite dict_set_length, !dict_in_set.
  unfold is_addr_tag in Ht. revert Ht.
  destruct (str_eqb (tag t) "tag"); [|simpl; intros; discriminate]. cbn [andb].
  destruct (get t "k") as [k|]; [|intros; discriminate]. cbn [str_of_option].
  intros Ht. apply orb_true_iff in Ht as [E | E]; apply str_eqb_eq in E; subst k.
  - change (str_eqb addr_street addr_housenumber) with false.
    rewrite str_eqb_refl. cbn [orb].
    destruct (dict_in acc addr_street); simpl in *; lia.
  - change (str_eqb addr_housenumber addr_street) with false.
    rewrite str_eqb_refl. cbn [orb].
    destruct (dict_in acc addr_housenumber); simpl in *; lia.
Qed.

(** What the loop body does with one element. *)
Lemma osm_element_spec (address_dict : dict str) (e : element) :
  osm_element address_dict e
  = if carries_both e
    then match address_string e with
         | Some address => Ok (dict_set address_dict (element_id e) address)
         | None => Raise TypeError
         end
    else Ok address_dict.
Proof.
  unfold osm_element, collect_tags, xpath_addr_tags.
  fold tag_step.
  pose proof (collect_tags_length (children e) [] eq_refl) as Hlen.
  cbv zeta in Hlen.
  pose proof (collect_tags_get (children e) (or_introl eq_refl) []) as Hhn.
  pose proof (collect_tags_get (children e) (or_intror eq_refl) []) as Hst.
  set (tags := fold_left tag_step (filter is_addr_tag (children e)) []) in *.
  unfold carries_both, carries, address_string, tag_value.
  rewrite <- !last_value_carries.
  unfold dict_in in Hlen. unfold dict_item. rewrite Hlen, Hhn, Hst.
  cbn [dict_get].
  destruct (last_value addr_housenumber (children e)) as [hn|];
    destruct (last_value addr_street (children e)) as [st|];
    cbn [b2n is_some andb Nat.add Nat.ltb Nat.leb bind]; try reflexivity.
  destruct hn as [hn|], st as [st|]; cbn [join_values bind]; try reflexivity.
Qed.

Lemma address_string_carries (e : element) (address : str) :
  address_string e = Some address -> carries_both e = true.
Proof.
  unfold address_string, carries_both, carries, tag_value.
  rewrite <- !last_value_carries.
  destruct (last_value addr_housenumber (children e)) as [[hn|]|]; try discriminate.
  destruct (last_value addr_street (children e)) as [[st|]|]; try discriminate.
  reflexivity.
Qed.

Lemma address_string_values (e : element) :
  (forall t, In t (children e) -> is_addr_tag t = true -> get t "v" <> None) ->
  carries_both e = true -> exists address, address_string e = Some address.
Proof.
  intros Hv. unfold address_string, carries_both, carries, tag_value.
  rewrite <- !last_value_carries.
  destruct (last_value addr_housenumber (children e)) as [hn|] eqn:Ehn;
    [|discriminate].
  destruct (last_value addr_street (children e)) as [st|] eqn:Est;
    [|discriminate].
  intros _.
  destruct (last_value_In _ _ Ehn) as (t1 & Hin1 & Hk1 & Hv1).
  destruct (last_value_In _ _ Est) as (t2 & Hin2 & Hk2 & Hv2).
  pose proof (Hv t1 Hin1 (has_tag_key_addr _ (or_introl eq_refl) Hk1)) as N1.
  pose proof (Hv t2 Hin2 (has_tag_key_addr _ (or_intror eq_refl) Hk2)) as N2.
  rewrite Hv1 in N1. rewrite Hv2 in N2.
  destruct hn as [hn|]; [|congruence]. destruct st as [st|]; [|congruence].
  eauto.
Qed.

Lemma osm_elements_spec (es : list element) :
  (forall e, In e es -> carries_both e = true -> address_string e <> None) ->
  forall address_dict,
    osm_elements address_dict es = Ok (fold_left entry_step es address_dict).
Proof.
  induction es as [|e es IH]; intros Hv d; [reflexivity|].
  cbn [osm_elements fold_left]. rewrite osm_element_spec. unfold entry_step at 2.
  destruct (carries_both e) eqn:Hc.
  - destruct (address_string e) as [a|] eqn:Ea.
    + cbn [bind]. apply IH. intros; apply Hv; auto using in_cons.
    + exfalso. apply (Hv e (in_eq _ _) Hc Ea).
  - destruct (address_string e) as [a|] eqn:Ea.
    + rewrite (address_string_carries _ Ea) in Hc. discriminate.
    + cbn [bind]. apply IH. intros; apply Hv; auto using in_cons.
Qed.

Lemma In_iter_self (e : element) : In e (iter e).
Proof. destruct e. left. reflexivity. Qed.

Lemma children_descendants (e c : element) :
  In c (children e) -> In c (descendants e).
Proof.
  intros H. unfold descendants. apply in_flat_map. exists c.
  split; [exact H | apply In_iter_self].
Qed.

(** An element that the XPath expression leaves out, though it is a node or
    a way, has no address tag below it and contributes nothing. *)
Lemma not_selected_no_address (e : element) :
  existsb is_addr_tag (descendants e) = false -> address_string e = None.
Proof.
  intros H. destruct (address_string e) as [a|] eqn:Ea; [|reflexivity].
  apply address_string_carries in Ea. unfold carries_both in Ea.
  apply andb_true_iff in Ea as [Hhn _]. unfold carries in Hhn.
  apply existsb_exists in Hhn as (t & Hin & Ht).
  assert (Hex : existsb is_addr_tag (descendants e) = true).
  { apply existsb_exists. exists t. split; [apply children_descendants, Hin|].
    eapply has_tag_key_addr; [left; reflexivity | exact Ht]. }
  congruence.
Qed.

Lemma fold_selected (l : list element) :
  forall address_dict,
    fold_left entry_step
      (filter (fun e => str_eqb (tag e) "node"
                        || (str_eqb (tag e) "way"
                            && existsb is_addr_tag (descendants e))) l)
      address_dict
    = fold_left entry_step (filter is_building l) address_dict.
Proof.
  induction l as [|e l IH]; intros d; [reflexivity|].
  cbn [filter]. unfold is_building at 1.
  destruct (str_eqb (tag e) "node"); cbn [orb]; [cbn [fold_left]; apply IH|].
  destruct (str_eqb (tag e) "way"); cbn [andb]; [|apply IH].
  destruct (existsb is_addr_tag (descendants e)) eqn:Hd; cbn [fold_left];
    [apply IH|].
  unfold entry_step at 3. rewrite (not_selected_no_address _ Hd). apply IH.
Qed.

(** The entry of [id] after the loop is that of the last element with that
    identifier that contributes one. *)
Lemma fold_entry_get (es : list element) (id address : str) :
  dict_get (fold_left entry_step es []) id = Some address <->
  exists before e after,
    es = before ++ e :: after /\ element_id e = id
    /\ address_string e = Some address
    /\ (forall e', In e' after -> element_id e' = id -> address_string e' = None).
Proof.
  induction es as [|e es IH] using rev_ind.
  - simpl. split; [discriminate|].
    intros (before & e & after & H & _). destruct before; discriminate.
  - rewrite fold_left_app. cbn [fold_left]. unfold entry_step at 1.
    destruct (address_string e) as [a|] eqn:Ea.
    + rewrite dict_get_set. destruct (str_eqb (element_id e) id) eqn:Eid.
      * apply str_eqb_eq in Eid. split.
        -- intros [= <-]. exists es, e, []. repeat split; auto.
           intros e' [].
        -- intros (before & e0 & after & H & Hid & Ha & Hafter).
           destruct after as [|x after] using rev_ind.
           ++ apply app_inj_tail in H as [_ <-]. congruence.
           ++ clear IHafter. rewrite app_comm_cons, app_assoc in H.
              apply app_inj_tail in H as [_ <-].
              rewrite (Hafter e) in Ea; [discriminate | | exact Eid].
              apply in_or_app. right. left. reflexivity.
      * apply str_eqb_neq in Eid. rewrite IH. split.
        -- intros (before & e0 & after & -> & Hid & Ha & Hafter).
           exists before, e0, (after ++ [e]).
           rewrite <- app_assoc. repeat split; auto.
           intros e' Hin. apply in_app_or in Hin as [Hin | [<- | []]]; auto.
           intros; congruence.
        -- intros (before & e0 & after & H & Hid & Ha & Hafter).
           destruct after as [|x after] using rev_ind.
           ++ apply app_inj_tail in H as [_ <-]. congruence.
           ++ clear IHafter. rewrite app_comm_cons, app_assoc in H.
              apply app_inj_tail in H as [-> <-].
              exists before, e0, after. repeat split; auto.
              intros e' Hin. apply Hafter. apply in_or_app. left. exact Hin.
    + rewrite IH. split.
      * intros (before & e0 & after & -> & Hid & Ha & Hafter).
        exists before, e0, (after ++ [e]).
        rewrite <- app_assoc. repeat split; auto.
        intros e' Hin. apply in_app_or in Hin as [Hin | [<- | []]]; auto.
      * intros (before & e0 & after & H & Hid & Ha & Hafter).
        destruct after as [|x after] using rev_ind.
        -- apply app_inj_tail in H as [_ <-]. congruence.
        -- clear IHafter. rewrite app_comm_cons, app_assoc in H.
           apply app_inj_tail in H as [-> <-].
           exists before, e0, after. repeat split; auto.
           intros e' Hin. apply Hafter. apply in_or_app. left. exact Hin.
Qed.

Lemma node_way_selected (root e : element) :
  In e (xpath_buildings root) -> In e (node_way_elements root).
Proof.
  unfold xpath_buildings, node_way_elements. rewrite !filter_In.
  intros [Hin H]. split; [exact Hin|]. unfold is_building.
  destruct (str_eqb (tag e) "node"); [reflexivity|]. cbn [orb] in *.
  apply andb_true_iff in H as [-> _]. reflexivity.
Qed.

Lemma osm_elements_outcome (es : list element) :
  forall d,
    match osm_elements d es with
    | Ok d' =>
        d' = fold_left entry_step es d
        /\ forall e, In e es -> carries_both e = true -> address_string e <> None
    | Raise ex =>
        ex = TypeError
        /\ exists e, In e es /\ carries_both e = true /\ address_string e = None
    end.
Proof.
  induction es as [|e es IH]; intros d.
  - cbn. split; [reflexivity | intros e []].
  - cbn [osm_elements fold_left]. rewrite osm_element_spec.
    unfold entry_step at 2.
    destruct (carries_both e) eqn:Hc.
    + destruct (address_string e) as [a|] eqn:Ea; cbn [bind].
      * specialize (IH (dict_set d (element_id e) a)).
        destruct (osm_elements (dict_set d (element_id e) a) es).
        -- destruct IH as [-> Hall]. split; [reflexivity|].
           intros e' [<- | Hin]; [congruence | apply Hall, Hin].
        -- destruct IH as [-> (e' & Hin & H)]. split; [reflexivity|].
           exists e'. split; [right; exact Hin | exact H].
      * split; [reflexivity|]. exists e. split; [left; reflexivity | auto].
    + assert (Ea : address_string e = None).
      { destruct (address_string e) as [a|] eqn:Ea; [|reflexivity].
        rewrite (address_string_carries _ Ea) in Hc. discriminate. }
      rewrite Ea. cbn [bind]. specialize (IH d).
      destruct (osm_elements d es).
      * destruct IH as [-> Hall]. split; [reflexivity|].
        intros e' [<- | Hin]; [congruence | apply Hall, Hin].
      * destruct IH as [-> (e' & Hin & H)]. split; [reflexivity|].
        exists e'. split; [right; exact Hin | exact H].
Qed.

Lemma carries_both_selected (root e : element) :
  In e (node_way_elements root) -> carries_both e = true ->
  In e (xpath_buildings root).
Proof.
  unfold xpath_buildings, node_way_elements. rewrite !filter_In.
  intros [Hin Hb] Hc. split; [exact Hin|]. unfold is_building in Hb.
  destruct (str_eqb (tag e) "node"); [reflexivity|]. cbn [orb] in *.
  rewrite Hb. cbn [andb].
  destruct (existsb is_addr_tag (descendants e)) eqn:Hd; [reflexivity|].
  pose proof (not_selected_no_address _ Hd) as Hnone.
  unfold carries_both, carries in Hc. apply andb_true_iff in Hc as [Hhn _].
  apply existsb_exists in Hhn as (t & Ht & Hk).
  assert (Hex : existsb is_addr_tag (descendants e) = true).
  { apply existsb_exists. exists t. split; [apply children_descendants, Ht|].
    eapply has_tag_key_addr; [left; reflexivity | exact Hk]. }
  congruence.
Qed.

(** With a [v] attribute on every address tag, as in an OSM export,
    [extract_osm_data] returns. *)
Lemma extract_osm_data_returns (root : element) :
  tags_have_values root -> exists address_dict, extract_osm_data root = Ok address_dict.
Proof.
  intros Hv. unfold extract_osm_data. rewrite osm_elements_spec; [eauto|].
  intros e Hin Hc.
  destruct (address_string_values e
              (fun t => Hv e t (node_way_selected _ _ Hin)) Hc) as [a Ha].
  congruence.
Qed.

(** C8, amended.  [extract_osm_data] either raises [TypeError], which it
    does when a node or way that carries both tags has no value for one of
    them, or returns a dictionary whose entries are exactly these: an
    identifier is mapped to [housenumber + " " + street], lowercased, of the
    last node or way in document order that has this identifier and carries
    both tags.  An element with one of the two tags only contributes
    nothing, and so does an element followed by one with the same
    identifier that carries both. *)
Theorem extract_osm_data_entries (root : element) :
  match extract_osm_data root with
  | Ok address_dict =>
      forall id address,
        dict_get address_dict id = Some address <->
        exists before e after,
          node_way_elements root = before ++ e :: after
          /\ element_id e = id
          /\ carries_both e = true
          /\ address_string e = Some address
          /\ (forall e', In e' after -> element_id e' = id ->
                         carries_both e' = false)
  | Raise ex =>
      ex = TypeError
      /\ exists e, In e (node_way_elements root) /\ carries_both e = true
                   /\ address_string e = None
  end.
Proof.
  unfold extract_osm_data.
  pose proof (osm_elements_outcome (xpath_buildings root) []) as H.
  destruct (osm_elements [] (xpath_buildings root)) as [d'|ex].
  - destruct H as [-> Hall]. intros id address.
    unfold xpath_buildings at 1. rewrite fold_selected.
    change (filter is_building (iter root)) with (node_way_elements root).
    rewrite fold_entry_get. split.
    + intros (before & e & after & E & Hid & Ha & Hafter).
      exists before, e, after. repeat split; auto.
      * apply (address_string_carries _ Ha).
      * intros e' Hin Hid'.
        destruct (carries_both e') eqn:Hc; [|reflexivity].
        exfalso. apply (Hall e'); [|exact Hc | apply Hafter; assumption].
        apply carries_both_selected; [|exact Hc].
        rewrite E. apply in_or_app. right. right. exact Hin.
    + intros (before & e & after & E & Hid & Hc & Ha & Hafter).
      exists before, e, after. repeat split; auto.
      intros e' Hin Hid'.
      destruct (address_string e') as [a'|] eqn:Ea'; [|reflexivity].
      specialize (Hafter e' Hin Hid').
      rewrite (address_string_carries _ Ea') in Hafter. discriminate.
  - destruct H as [-> (e & Hin & H)]. split; [reflexivity|].
    exists e. split; [apply node_way_selected, Hin | exact H].
Qed.

(** C8, as stated, fails: in [osm_two_addresses] the node 7 carries both
    tags and its string is ["100 main street"], but the entry of ["7"] is
    that of the way 7, which comes later. *)
Lemma extract_osm_data_shared_id :
  ~ (forall (root : element) (address_dict : dict str) (e : element)
            (address : str),
        extract_osm_data root = Ok address_dict ->
        In e (node_way_elements root) ->
        carries_both e = true ->
        address_string e = Some address ->
        dict_get address_dict (element_id e) = Some address).
Proof.
  intros H.
  specialize (H osm_two_addresses [item "7" "200 oak avenue"]
                (Element "node" [item "id" "7"]
                   [ tag_kv "addr:housenumber" "100";
                     tag_kv "addr:street" "Main Street" ])
                (str_of_string "100 main street")
                ltac:(vm_compute; reflexivity)
                ltac:(vm_compute; auto)
                ltac:(vm_compute; reflexivity)
                ltac:(vm_compute; reflexivity)).
  vm_compute in H. discriminate H.
Qed.

(** * The element tree: facts used below *)

Lemma nth_error_update_nth_same {A : Type} (f : A -> A) (l : list A) (i : nat) :
  nth_error (update_nth i f l) i = option_map f (nth_error l i).
Proof.
  revert i. induction l as [|x l IH]; intros [|i]; simpl; auto.
Qed.

Lemma nth_error_update_nth_other {A : Type} (f : A -> A) (l : list A) (i j : nat) :
  i <> j -> nth_error (update_nth i f l) j = nth_error l j.
Proof.
  revert i j. induction l as [|x l IH]; intros [|i] [|j] H; simpl; auto;
    congruence.
Qed.

Lemma map_update_nth {A B : Type} (g : A -> B) (f : A -> A) (l : list A) (i : nat) :
  (forall x, g (f x) = g x) -> map g (update_nth i f l) = map g l.
Proof.
  intros H. revert i. induction l as [|x l IH]; intros [|i]; simpl; auto;
    congruence.
Qed.

Lemma label_append_at (e : element) (p : path) (new : element) :
  label (append_at e p new) = label e.
Proof. destruct p; reflexivity. Qed.

(** Appending at [p] leaves every other place of the tree with the same
    label and with children of the same labels. *)
Lemma append_at_other (new : element) (q : path) :
  forall (t : element) (p : path) (e : element),
    get_at t q = Some e -> q <> p ->
    exists e', get_at (append_at t p new) q = Some e'
               /\ label e' = label e
               /\ map label (children e') = map label (children e).
Proof.
  induction q as [|j q IH]; intros t p e Hget Hne.
  - injection Hget as <-. destruct p as [|i p]; [congruence|].
    eexists. split; [reflexivity|]. split; [reflexivity|].
    cbn [append_at children]. apply map_update_nth.
    intros c. apply label_append_at.
  - cbn [get_at] in Hget.
    destruct (nth_error (children t) j) as [c|] eqn:Ec; [|discriminate].
    destruct p as [|i p].
    + exists e. cbn [append_at get_at children].
      rewrite nth_error_app1 by (apply nth_error_Some; congruence).
      rewrite Ec. auto.
    + cbn [append_at get_at children].
      destruct (Nat.eq_dec i j) as [-> | Hij].
      * rewrite nth_error_update_nth_same, Ec. cbn [option_map].
        apply IH; [exact Hget | congruence].
      * rewrite nth_error_update_nth_other by exact Hij.
        rewrite Ec. exists e. auto.
Qed.

(** Appending at [p] adds the new element as the last child there. *)
Lemma append_at_same (new : element) (p : path) :
  forall (t e : element),
    get_at t p = Some e ->
    get_at (append_at t p new) p
    = Some (Element (tag e) (attrib e) (children e ++ [new])).
Proof.
  induction p as [|i p IH]; intros t e Hget.
  - injection Hget as <-. reflexivity.
  - cbn [get_at] in Hget.
    destruct (nth_error (children t) i) as [c|] eqn:Ec; [|discriminate].
    cbn [append_at get_at children].
    rewrite nth_error_update_nth_same, Ec. cbn [option_map].
    apply IH, Hget.
Qed.

Lemma first_child_sound (f : element -> bool) (cs : list element) :
  Forall (fun c => forall p, first_match f c = Some p ->
                             exists e, get_at c p = Some e /\ f e = true) cs ->
  forall (i : nat) (p : path),
    first_child (first_match f) cs i = Some p ->
    exists j q c e,
      p = (i + j) :: q /\ nth_error cs j = Some c
      /\ get_at c q = Some e /\ f e = true.
Proof.
  induction 1 as [|c cs Hc Hcs IH]; intros i p; [discriminate|].
  cbn [first_child]. destruct (first_match f c) as [q|] eqn:Eq.
  - intros [= <-]. destruct (Hc q eq_refl) as (e & He & Hf).
    exists 0, q, c, e. rewrite Nat.add_0_r. auto.
  - intros Hp. destruct (IH _ _ Hp) as (j & q & c' & e & -> & Hn & He & Hf).
    exists (S j), q, c', e. repeat split; auto. f_equal. lia.
Qed.

Lemma first_match_sound (f : element -> bool) (e : element) :
  forall p, first_match f e = Some p ->
            exists e', get_at e p = Some e' /\ f e' = true.
Proof.
  induction e as [t a cs IH] using element_induction. intros p.
  cbn [first_match]. destruct (f (Element t a cs)) eqn:Ef.
  - intros [= <-]. exists (Element t a cs). auto.
  - intros Hp.
    destruct (@first_child_sound f cs IH _ _ Hp) as (j & q & c & e & -> & Hn & He & Hf).
    exists e. change (0 + j) with j. cbn [get_at children]. rewrite Hn. auto.
Qed.

(** ** The path expression *)

Lemma scan_value (key : str) (done : list (str * str)) (v : str) :
  existsb (Ascii.eqb "'"%char) v = false ->
  forall acc,
    scan_predicates (v ++ str_of_string "']") (InValue key acc) done
    = Some (done ++ [(key, acc ++ v)]).
Proof.
  induction v as [|c v IH]; intros Hv acc.
  - cbn. rewrite app_nil_r. reflexivity.
  - cbn [existsb] in Hv. apply orb_false_iff in Hv as [Hc Hv].
    cbn [app scan_predicates]. rewrite Ascii.eqb_sym, Hc.
    rewrite (IH Hv). rewrite <- app_assoc. reflexivity.
Qed.

(** An identifier without a single quote gives the one predicate
    [[@id='id']]. *)
Lemma predicates_of_plain (id : str) :
  existsb (Ascii.eqb "'"%char) id = false ->
  predicates_of (id_path id) = Some [(str_of_string "id", id)].
Proof.
  intros Hid.
  assert (E : predicates_of (id_path id)
              = match scan_predicates (id ++ str_of_string "']")
                        (InValue (str_of_string "id") []) [] with
                | Some (p :: ps) => Some (p :: ps)
                | _ => None
                end) by reflexivity.
  rewrite E, (@scan_value _ [] _ Hid []). reflexivity.
Qed.

Lemma first_child_ext (g h : element -> option path) (cs : list element) :
  Forall (fun c => g c = h c) cs ->
  forall i, first_child g cs i = first_child h cs i.
Proof.
  induction 1 as [|c cs Hc Hcs IH]; intros i; [reflexivity|].
  cbn [first_child]. rewrite Hc. destruct (h c); [reflexivity | apply IH].
Qed.

Lemma first_match_ext (f g : element -> bool) :
  (forall e, f e = g e) -> forall e, first_match f e = first_match g e.
Proof.
  intros Hfg e. induction e as [t a cs IH] using element_induction.
  cbn [first_match]. rewrite Hfg. destruct (g (Element t a cs)); [reflexivity|].
  apply first_child_ext, IH.
Qed.

Lemma holds_id (id : str) (e : element) :
  holds [(str_of_string "id", id)] e = has_id id e.
Proof. unfold holds, has_id. cbn [forallb fst snd]. apply andb_true_r. Qed.

Section FindFacts.
Variable element_path : element -> str -> result (option path).

(** For an identifier without a single quote [find] returns the first
    proper descendant of the root whose [id] attribute is the identifier. *)
Lemma find_plain (xml_tree : element) (id : str) :
  existsb (Ascii.eqb "'"%char) id = false ->
  find element_path xml_tree id
  = Ok (first_child (first_match (has_id id)) (children xml_tree) 0).
Proof.
  intros Hid. unfold find. rewrite (@predicates_of_plain id Hid). f_equal.
  apply first_child_ext, Forall_forall. intros c _.
  apply first_match_ext, holds_id.
Qed.

(** What [find] returns for such an identifier refers to an element with
    the identifier asked for. *)
Lemma find_sound (xml_tree : element) (id : str) (p : path) :
  existsb (Ascii.eqb "'"%char) id = false ->
  find element_path xml_tree id = Ok (Some p) ->
  exists e, get_at xml_tree p = Some e /\ get e "id" = Some id.
Proof.
  intros Hid. rewrite (@find_plain xml_tree id Hid). intros [= Hp].
  assert (Hall : Forall (fun c => forall p, first_match (has_id id) c = Some p ->
                   exists e, get_at c p = Some e /\ has_id id e = true)
                        (children xml_tree)).
  { apply Forall_forall. intros c _. apply first_match_sound. }
  destruct (@first_child_sound _ _ Hall _ _ Hp) as (j & q & c & e & -> & Hn & He & Hf).
  exists e. change (0 + j) with j. cbn [get_at]. rewrite Hn.
  split; [exact He|].
  unfold has_id in Hf. destruct (get e "id") as [v|]; [|discriminate].
  apply str_eqb_eq in Hf as ->. reflexivity.
Qed.
End FindFacts.

(** * append_xml *)

Lemma label_get (e e' : element) (k : str) :
  label e' = label e -> get e' k = get e k.
Proof. unfold label, get. intros [= _ ->]. reflexivity. Qed.

Lemma kept_refl (P : element -> Prop) (t : element) : kept P t t.
Proof. intros q e Hq _. exists e. auto. Qed.

(** Appending to an element whose [id] attribute no element of [P] has keeps
    the elements of [P]. *)
Lemma kept_append (P : element -> Prop) (t0 t : element) (p : path)
    (ep new : element) :
  kept P t0 t ->
  get_at t p = Some ep ->
  (forall e, P e -> get e "id" <> get ep "id") ->
  kept P t0 (append_at t p new).
Proof.
  intros H Hp Hne q e Hq HP.
  destruct (H q e Hq HP) as (e1 & Hq1 & Hl1 & Hc1).
  assert (Hqp : q <> p).
  { intros ->. rewrite Hp in Hq1. injection Hq1 as ->.
    apply (Hne e HP). symmetry. apply label_get, Hl1. }
  destruct (@append_at_other new q t p e1 Hq1 Hqp) as (e2 & Hq2 & Hl2 & Hc2).
  exists e2. split; [exact Hq2|]. split; congruence.
Qed.

Lemma untouched_refl (id : str) (t : element) : untouched id t t.
Proof. intros q e Hq _. exists e. auto. Qed.

Lemma NoDup_keys_quiet (input_dict element_dict : dict str) (id address : str) :
  NoDup (keys element_dict) ->
  In (id, address) element_dict ->
  dict_in input_dict address = false ->
  quiet input_dict id element_dict.
Proof.
  unfold keys, quiet.
  induction element_dict as [|[k v] d IH]; intros Hnd Hin Hnot a Ha;
    [contradiction|].
  cbn [map fst] in Hnd. inversion Hnd as [|? ? Hk Hd]; subst.
  assert (Hkey : forall x, In (k, x) d -> False).
  { intros x Hx. apply Hk. apply in_map_iff. exists (k, x). auto. }
  destruct Hin as [Hin | Hin], Ha as [Ha | Ha].
  - congruence.
  - exfalso. injection Hin as -> _. apply (Hkey a Ha).
  - exfalso. injection Ha as -> _. apply (Hkey address Hin).
  - apply IH; assumption.
Qed.

(** An element whose identifier is that of entries without a record is the
    element of no entry that has one. *)
Lemma quiet_not_target (element_dict input_dict : dict str) (id : str)
    (e : element) :
  quiet input_dict id element_dict ->
  element_id e = id ->
  ~ target element_dict input_dict e.
Proof.
  intros Hquiet He (id' & a' & Hin & Hmatch & Hid).
  unfold element_id in He. rewrite Hid in He. cbn [str_of_option] in He.
  subst id'. rewrite (Hquiet a' Hin) in Hmatch. discriminate.
Qed.

(** *** Elements below an element *)

Lemma get_at_app (q r : path) :
  forall t : element,
    get_at t (q ++ r)
    = match get_at t q with
      | Some e => get_at e r
      | None => None
      end.
Proof.
  induction q as [|i q IH]; intros t; [reflexivity|].
  cbn [app get_at]. destruct (nth_error (children t) i); [apply IH | reflexivity].
Qed.

Lemma iter_eq (e : element) : iter e = e :: descendants e.
Proof. destruct e. reflexivity. Qed.

Lemma get_at_iter (r : path) :
  forall e d : element, get_at e r = Some d -> In d (iter e).
Proof.
  induction r as [|i r IH]; intros e d H.
  - injection H as <-. rewrite iter_eq. left. reflexivity.
  - cbn [get_at] in H.
    destruct (nth_error (children e) i) as [c|] eqn:Ec; [|discriminate].
    rewrite iter_eq. right. unfold descendants. apply in_flat_map.
    exists c. split; [eapply nth_error_In; exact Ec | apply IH, H].
Qed.

Lemma get_at_descendants (e d : element) (i : nat) (r : path) :
  get_at e (i :: r) = Some d -> In d (descendants e).
Proof.
  cbn [get_at]. destruct (nth_error (children e) i) as [c|] eqn:Ec;
    [|discriminate].
  intros H. unfold descendants. apply in_flat_map.
  exists c. split; [eapply nth_error_In; exact Ec | eapply get_at_iter, H].
Qed.

Lemma list_eq_nth {A : Type} (l : list A) :
  forall l' : list A,
    length l' = length l ->
    (forall i x, nth_error l i = Some x -> nth_error l' i = Some x) ->
    l' = l.
Proof.
  induction l as [|x l IH]; intros [|x' l'] Hlen H; try discriminate.
  - reflexivity.
  - pose proof (H 0 x eq_refl) as H0. injection H0 as ->. f_equal.
    apply IH; [simpl in Hlen; lia|].
    intros i y Hy. exact (H (S i) y Hy).
Qed.

(** An element whose place and whose descendants' places hold, in [e'],
    elements of the same tag and attributes with children of the same tags
    and attributes, is [e'] itself. *)
Lemma same_everywhere (e : element) :
  forall e' : element,
    (forall r d, get_at e r = Some d ->
       exists d', get_at e' r = Some d' /\ label d' = label d
                  /\ map label (children d') = map label (children d)) ->
    e' = e.
Proof.
  induction e as [t a cs IH] using element_induction.
  intros [t' a' cs'] H.
  destruct (H [] _ eq_refl) as (d' & Hd' & Hl & Hc).
  injection Hd' as <-. unfold label in Hl. cbn [tag attrib] in Hl.
  injection Hl as -> ->. cbn [children] in Hc. f_equal.
  apply list_eq_nth.
  - rewrite <- (length_map label cs'), Hc. apply length_map.
  - intros i c Hi.
    destruct (H [i] c) as (c' & Hc' & _).
    { cbn [get_at children]. rewrite Hi. reflexivity. }
    cbn [get_at children] in Hc'.
    destruct (nth_error cs' i) as [c''|] eqn:Ec'; [|discriminate].
    injection Hc' as ->. f_equal.
    rewrite Forall_forall in IH. apply (IH c (nth_error_In _ _ Hi)).
    intros r d Hr.
    destruct (H (i :: r) d) as (d' & Hd' & Hrest).
    { cbn [get_at children]. rewrite Hi. exact Hr. }
    cbn [get_at children] in Hd'. rewrite Ec' in Hd'.
    exists d'. split; [exact Hd' | exact Hrest].
Qed.

Lemma plain_ids_app (before after : dict str) (entry : str * str)
    (input_dict : dict str) :
  plain_ids (before ++ entry :: after) input_dict ->
  plain_ids before input_dict /\ plain_ids after input_dict.
Proof.
  intros H. split; intros id address Hin; apply H, in_or_app;
    [left | right; right]; exact Hin.
Qed.

Section AppendFacts.
Variable element_path : element -> str -> result (option path).

(** *** What the loop leaves alone *)

(** The entry of an identifier whose entries have no record stays as it
    was in [output_dict], whatever [find] answers. *)
Lemma append_loop_other (input_dict : dict str) (id : str)
    (items : list (str * str)) :
  quiet input_dict id items ->
  forall (xml_tree : element) (output_dict : dict str),
    dict_get (fst (append_loop element_path input_dict items xml_tree output_dict)) id
    = dict_get output_dict id.
Proof.
  induction items as [|[id' address'] rest IH]; intros Hquiet t out;
    [reflexivity|].
  assert (Hrest : quiet input_dict id rest)
    by (intros a Ha; apply Hquiet; right; exact Ha).
  cbn [append_loop].
  destruct (dict_in input_dict address') eqn:Hin; [|apply IH; assumption].
  assert (Hid : id' <> id).
  { intros ->. rewrite (Hquiet address' (or_introl eq_refl)) in Hin.
    discriminate. }
  assert (Hout : dict_get (dict_set out id' address') id = dict_get out id)
    by (apply dict_get_set_other, Hid).
  destruct (find element_path t id') as [[p|]|ex].
  - destruct (option_map children (get_at t p)) as [[|c cs]|]; try exact Hout.
    destruct (v <- dict_item input_dict address' ;; new_dwelling_tag v)
      as [new_tag|ex]; [|exact Hout].
    rewrite (IH Hrest). exact Hout.
  - apply IH; assumption.
  - reflexivity.
Qed.

(** When the identifiers of the entries that have a record hold no single
    quote and are the [id] attribute of no element of [P], the loop keeps
    the elements of [P]. *)
Lemma append_loop_kept (P : element -> Prop) (input_dict : dict str)
    (t0 : element) (items : list (str * str)) :
  (forall id address,
     In (id, address) items -> dict_in input_dict address = true ->
     existsb (Ascii.eqb "'"%char) id = false
     /\ forall e, P e -> get e "id" <> Some id) ->
  forall (xml_tree : element) (output_dict : dict str),
    kept P t0 xml_tree ->
    forall tree',
      snd (append_loop element_path input_dict items xml_tree output_dict) = Ok tree' ->
      kept P t0 tree'.
Proof.
  induction items as [|[id' address'] rest IH]; intros Hitems t out Hk tree'.
  - cbn. intros [= <-]. exact Hk.
  - assert (Hrest : forall id address,
               In (id, address) rest -> dict_in input_dict address = true ->
               existsb (Ascii.eqb "'"%char) id = false
               /\ forall e, P e -> get e "id" <> Some id)
      by (intros i a Hi; apply Hitems; right; exact Hi).
    cbn [append_loop].
    destruct (dict_in input_dict address') eqn:Hin; [|apply IH; assumption].
    destruct (Hitems id' address' (or_introl eq_refl) Hin) as [Hplain HP].
    destruct (find element_path t id') as [[p|]|ex] eqn:Hfind.
    + destruct (@find_sound element_path t id' p Hplain Hfind)
        as (ep & Hp & Hepid).
      rewrite Hp. cbn [option_map].
      destruct (children ep) as [|c cs]; [cbn; discriminate|].
      destruct (v <- dict_item input_dict address' ;; new_dwelling_tag v)
        as [new_tag|ex]; [|cbn; discriminate].
      apply IH; [exact Hrest|].
      eapply kept_append; [exact Hk | exact Hp |].
      intros e He. rewrite Hepid. apply HP, He.
    + apply IH; assumption.
    + cbn. discriminate.
Qed.

Lemma append_loop_untouched (input_dict : dict str) (id : str) (t0 : element)
    (items : list (str * str)) :
  quiet input_dict id items ->
  plain_ids items input_dict ->
  forall (xml_tree : element) (output_dict : dict str),
    untouched id t0 xml_tree ->
    dict_get (fst (append_loop element_path input_dict items xml_tree output_dict)) id
    = dict_get output_dict id
    /\ forall tree',
         snd (append_loop element_path input_dict items xml_tree output_dict)
         = Ok tree' ->
         untouched id t0 tree'.
Proof.
  intros Hquiet Hplain t out Hun. split; [apply append_loop_other, Hquiet|].
  apply (@append_loop_kept (fun e => get e "id" = Some id)); [|exact Hun].
  intros id' a' Hin Hmatch. split; [exact (Hplain id' a' Hin Hmatch)|].
  intros e He Heq. rewrite He in Heq. injection Heq as Heq. subst id'.
  rewrite (Hquiet a' Hin) in Hmatch. discriminate.
Qed.

(** The elements of no entry with a record are kept by [append_xml] when the
    identifiers of the entries with a record hold no single quote. *)
Lemma append_xml_keeps_others
    (xml_tree : element) (element_dict input_dict output_dict : dict str) :
  plain_ids element_dict input_dict ->
  forall tree',
    snd (append_xml element_path xml_tree element_dict input_dict output_dict)
    = Ok tree' ->
    kept (fun e => ~ target element_dict input_dict e) xml_tree tree'.
Proof.
  intros Hplain tree'. unfold append_xml.
  apply append_loop_kept; [|apply kept_refl].
  intros id' a' Hin Hmatch. split; [exact (Hplain id' a' Hin Hmatch)|].
  intros e He Hid. apply He. exists id', a'. auto.
Qed.

(** C2: an entry [(id, address)] of the dictionary [element_dict] whose
    address is no key of [input_dict] changes nothing of its own, provided
    no identifier of an entry whose address is a key holds a single quote.
    The entry of [id] in [output_dict] stays as it was.  In the tree
    written, every element whose identifier [str(e.get('id'))] is [id], an
    element without [id] included when [id] is ["None"], is at its place
    with its tag, its attributes and its children's tags and attributes, so
    no tag child was appended to it; and it is the same element, subtree
    and all, when none of its descendants is the element of an entry whose
    address is a key. *)
Theorem append_xml_non_match
    (xml_tree : element) (element_dict input_dict output_dict : dict str)
    (id address : str) :
  NoDup (keys element_dict) ->
  In (id, address) element_dict ->
  dict_in input_dict address = false ->
  plain_ids element_dict input_dict ->
  dict_get (fst (append_xml element_path xml_tree element_dict input_dict
                            output_dict)) id
  = dict_get output_dict id
  /\ forall tree',
       snd (append_xml element_path xml_tree element_dict input_dict output_dict)
       = Ok tree' ->
       forall (q : path) (e : element),
         get_at xml_tree q = Some e ->
         element_id e = id ->
         exists e',
           get_at tree' q = Some e'
           /\ label e' = label e
           /\ map label (children e') = map label (children e)
           /\ ((forall d, In d (descendants e) ->
                          ~ target element_dict input_dict d) ->
               e' = e).
Proof.
  intros Hnd Hin Hnot Hplain.
  pose proof (@NoDup_keys_quiet input_dict element_dict id address Hnd Hin Hnot)
    as Hquiet.
  split; [apply append_loop_other, Hquiet|].
  intros tree' Hrun q e Hq He.
  pose proof (@append_xml_keeps_others xml_tree element_dict input_dict
                output_dict Hplain tree' Hrun) as Hkept.
  pose proof (@quiet_not_target element_dict input_dict id e Hquiet He) as Hself.
  destruct (Hkept q e Hq Hself) as (e' & Hq' & Hl & Hc).
  exists e'. split; [exact Hq'|]. split; [exact Hl|]. split; [exact Hc|].
  intros Hbelow. apply same_everywhere. intros r d Hr.
  assert (Hd : ~ target element_dict input_dict d).
  { destruct r as [|i r].
    - injection Hr as <-. exact Hself.
    - apply Hbelow. eapply get_at_descendants, Hr. }
  destruct (Hkept (q ++ r) d) as (d' & Hd' & Hrest); [|exact Hd|].
  { rewrite get_at_app, Hq. exact Hr. }
  rewrite get_at_app, Hq' in Hd'.
  exists d'. split; [exact Hd' | exact Hrest].
Qed.

(** C1: with the record ["100 main street" -> "4"] read from the CSV file and
    the document [osm_node7_way7], the entry ["7"] comes from the way 7, but
    [find] returns the node 7, which is first in document order and has no
    children; [output_dict] gets the entry, then reading [node_element[0]]
    raises [IndexError]: no tag is appended and no tree is written. *)
Theorem append_xml_childless_element :
  extract_csv_data
    [ [str_of_string "address"; str_of_string "permit"; str_of_string "units"];
      [str_of_string "100 Main St"; str_of_string "B-1"; str_of_string "4"] ]
  = Ok records_main_street
  /\ extract_osm_data osm_node7_way7 = Ok [item "7" "100 main street"]
  /\ dict_in records_main_street (str_of_string "100 main street") = true
  /\ find element_path osm_node7_way7 (str_of_string "7") = Ok (Some [0])
  /\ option_map children (get_at osm_node7_way7 [0]) = Some []
  /\ append_xml element_path osm_node7_way7 [item "7" "100 main street"]
                records_main_street []
     = ([item "7" "100 main street"], Raise IndexError).
Proof. repeat split; vm_compute; reflexivity. Qed.

(** The example of the specification, on a document where the identifier is
    that of one element only: the entry is recorded and the element gains
    the tag [dwelling_units = 4]. *)
Lemma append_xml_example :
  let geo := [item "7" "100 main street"] in
  let doc :=
    Element "osm" []
      [ Element "node" [item "id" "7"]
          [ tag_kv "addr:housenumber" "100"; tag_kv "addr:street" "Main Street" ] ]
  in
  extract_osm_data doc = Ok geo
  /\ append_xml element_path doc geo records_main_street []
     = (geo,
        Ok (Element "osm" []
              [ Element "node" [item "id" "7"]
                  [ tag_kv "addr:housenumber" "100";
                    tag_kv "addr:street" "Main Street";
                    tag_kv "dwelling_units" "4" ] ])).
Proof. split; vm_compute; reflexivity. Qed.

(** An identifier with a single quote: the document [osm_quoted_id] has the
    node [8] at ["12 elm street"], which has no record, and a node whose
    identifier is [8'][@id='8] at ["100 main street"], which has one.  The
    path pasted for the second is [.//*[@id='8'][@id='8']]; it locates the
    node [8], which gains the tag [dwelling_units = 4]. *)
Lemma append_xml_quoted_id_run :
  extract_osm_data osm_quoted_id = Ok osm_quoted_id_dict
  /\ id_path quoted_id = str_of_string ".//*[@id='8'][@id='8']"
  /\ find element_path osm_quoted_id quoted_id = Ok (Some [0])
  /\ option_map element_id (get_at osm_quoted_id [0]) = Some (str_of_string "8")
  /\ append_xml element_path osm_quoted_id osm_quoted_id_dict
                records_main_street []
     = ([(quoted_id, str_of_string "100 main street")],
        Ok osm_quoted_id_written).
Proof. repeat split; vm_compute; reflexivity. Qed.
End AppendFacts.

Lemma append_xml_non_match_witness :
  let element_dict := [item "7" "100 main street"; item "8" "12 elm street"] in
  dict_get (fst (append_xml any_element_path osm_one_address element_dict
                            records_main_street []))
           (str_of_string "8")
  = None
  /\ forall tree',
       snd (append_xml any_element_path osm_one_address element_dict
                       records_main_street [])
       = Ok tree' ->
       forall (q : path) (e : element),
         get_at osm_one_address q = Some e ->
         element_id e = str_of_string "8" ->
         exists e',
           get_at tree' q = Some e'
           /\ label e' = label e
           /\ map label (children e') = map label (children e)
           /\ ((forall d, In d (descendants e) ->
                          ~ target element_dict records_main_street d) ->
               e' = e).
Proof.
  cbv zeta.
  apply (@append_xml_non_match any_element_path osm_one_address
           [item "7" "100 main street"; item "8" "12 elm street"]
           records_main_street [] (str_of_string "8")
           (str_of_string "12 elm street")).
  - repeat constructor; simpl; intuition discriminate.
  - right. left. reflexivity.
  - vm_compute. reflexivity.
  - intros id address [H | [H | []]] Hmatch; injection H as <- <-;
      [reflexivity | vm_compute in Hmatch; discriminate].
Defined.

(** C2 as the specification words it fails: in the run of
    [append_xml_quoted_id_run] the entry of the node [8] has no record, and
    the node [8] is given a [dwelling_units] tag all the same. *)
Lemma append_xml_quoted_id :
  ~ (forall (element_path : element -> str -> result (option path))
            (xml_tree : element)
            (element_dict input_dict output_dict : dict str)
            (id address : str),
       NoDup (keys element_dict) ->
       In (id, address) element_dict ->
       dict_in input_dict address = false ->
       dict_get (fst (append_xml element_path xml_tree element_dict input_dict
                                 output_dict)) id
       = dict_get output_dict id
       /\ forall tree',
            snd (append_xml element_path xml_tree element_dict input_dict
                            output_dict) = Ok tree' ->
            untouched id xml_tree tree').
Proof.
  intros H.
  destruct (H any_element_path osm_quoted_id osm_quoted_id_dict
              records_main_street [] (str_of_string "8")
              (str_of_string "12 elm street")) as [_ Hun].
  - repeat constructor; simpl; intuition discriminate.
  - left. reflexivity.
  - vm_compute. reflexivity.
  - specialize (Hun osm_quoted_id_written eq_refl).
    destruct (Hun [0] (Element "node" [item "id" "8"]
                         [ tag_kv "addr:housenumber" "12";
                           tag_kv "addr:street" "Elm Street" ])
                  eq_refl eq_refl) as (e' & Hget & _ & Hc).
    vm_compute in Hget. injection Hget as <-.
    vm_compute in Hc. discriminate.
Qed.

(** ** The join when nothing is raised *)

Lemma first_child_app (g : element -> option path) (cs : list element)
    (new : element) :
  g new = None ->
  forall i, first_child g (cs ++ [new]) i = first_child g cs i.
Proof.
  intros Hnew. induction cs as [|c cs IH]; intros i; cbn [app first_child].
  - rewrite Hnew. reflexivity.
  - destruct (g c); [reflexivity | apply IH].
Qed.

Lemma first_child_update_nth (g : element -> option path)
    (h : element -> element) (cs : list element) :
  (forall c, g (h c) = g c) ->
  forall i k, first_child g (update_nth i h cs) k = first_child g cs k.
Proof.
  intros Hh. induction cs as [|c cs IH]; intros [|i] k;
    cbn [update_nth first_child]; try reflexivity.
  - rewrite Hh. reflexivity.
  - destruct (g c); [reflexivity | apply IH].
Qed.

Lemma first_match_append_at (f : element -> bool) (new : element) :
  (forall e e', label e = label e' -> f e = f e') ->
  first_match f new = None ->
  forall p t, first_match f (append_at t p new) = first_match f t.
Proof.
  intros Hf Hnew. induction p as [|i p IH]; intros [tg a cs];
    cbn [append_at tag attrib children first_match].
  - rewrite (Hf (Element tg a (cs ++ [new])) (Element tg a cs) eq_refl).
    destruct (f (Element tg a cs)); [reflexivity|].
    apply first_child_app, Hnew.
  - rewrite (Hf (Element tg a (update_nth i (fun c => append_at c p new) cs))
                (Element tg a cs) eq_refl).
    destruct (f (Element tg a cs)); [reflexivity|].
    apply first_child_update_nth, IH.
Qed.

Lemma has_id_label (id : str) (e e' : element) :
  label e = label e' -> has_id id e = has_id id e'.
Proof. intros H. unfold has_id. rewrite (label_get _ H). reflexivity. Qed.

Lemma append_at_grows (new : element) (q : path) (t : element) (p : path)
    (e : element) :
  get_at t q = Some e ->
  exists e', get_at (append_at t p new) q = Some e' /\ label e' = label e
             /\ length (children e) <= length (children e').
Proof.
  intros Hq. destruct (list_eq_dec Nat.eq_dec q p) as [-> | Hne].
  - rewrite (append_at_same new _ _ Hq). eexists. split; [reflexivity|].
    split; [reflexivity|]. cbn [children]. rewrite length_app. lia.
  - destruct (@append_at_other new q t p e Hq Hne) as (e' & H1 & H2 & H3).
    exists e'. split; [exact H1|]. split; [exact H2|].
    rewrite <- (length_map label (children e)), <- H3, length_map. lia.
Qed.

Lemma grown_refl (t : element) : grown t t.
Proof. intros q e Hq. exists e. auto. Qed.

Lemma grown_append (t0 t : element) (p : path) (new : element) :
  grown t0 t -> grown t0 (append_at t p new).
Proof.
  intros H q e Hq. destruct (H q e Hq) as (e1 & Hq1 & Hl1 & Hn1).
  destruct (@append_at_grows new q t p e1 Hq1) as (e2 & Hq2 & Hl2 & Hn2).
  exists e2. split; [exact Hq2|]. split; [congruence | lia].
Qed.

Lemma keys_app_cons (before after : dict str) (id address : str) :
  keys (before ++ (id, address) :: after) = keys before ++ id :: keys after.
Proof. unfold keys. rewrite map_app. reflexivity. Qed.

Lemma quiet_absent (input_dict : dict str) (id : str) (items : dict str) :
  ~ In id (keys items) -> quiet input_dict id items.
Proof.
  intros H a Ha. exfalso. apply H. unfold keys. apply in_map_iff.
  exists (id, a). auto.
Qed.

Section JoinFacts.
Variable element_path : element -> str -> result (option path).

(** The appended tag has no [id]: for an identifier without a single quote
    [find] answers as before. *)
Lemma find_append_at (t : element) (p : path) (units id : str) :
  existsb (Ascii.eqb "'"%char) id = false ->
  find element_path (append_at t p (dwelling_tag units)) id
  = find element_path t id.
Proof.
  intros Hid. rewrite !(@find_plain element_path _ id Hid). f_equal.
  assert (Hnew : first_match (has_id id) (dwelling_tag units) = None)
    by reflexivity.
  destruct p as [|i p]; cbn [append_at children].
  - apply first_child_app, Hnew.
  - apply first_child_update_nth. intros c.
    apply first_match_append_at; [apply has_id_label | exact Hnew].
Qed.

(** The loop over [l1 ++ l2] is the loop over [l1] followed, when it raised
    nothing, by the loop over [l2]. *)
Lemma append_loop_app (input_dict : dict str) (l1 l2 : list (str * str)) :
  forall (t : element) (out : dict str),
    append_loop element_path input_dict (l1 ++ l2) t out
    = match append_loop element_path input_dict l1 t out with
      | (out1, Ok t1) => append_loop element_path input_dict l2 t1 out1
      | (out1, Raise e) => (out1, Raise e)
      end.
Proof.
  induction l1 as [|[id address] l1 IH]; intros t out; [reflexivity|].
  cbn [app append_loop].
  destruct (dict_in input_dict address); [|apply IH].
  destruct (find element_path t id) as [[p|]|e]; [|apply IH | reflexivity].
  destruct (option_map children (get_at t p)) as [[|c cs]|]; try reflexivity.
  destruct (v <- dict_item input_dict address ;; new_dwelling_tag v);
    [apply IH | reflexivity].
Qed.

(** Under [raises_nothing] the loop ends without an exception. *)
Lemma append_loop_ok (input_dict : dict str) (t0 : element)
    (items : list (str * str)) :
  raises_nothing element_path t0 items input_dict ->
  forall (t : element) (out : dict str),
    grown t0 t ->
    (forall id, existsb (Ascii.eqb "'"%char) id = false ->
                find element_path t id = find element_path t0 id) ->
    exists out' t', append_loop element_path input_dict items t out = (out', Ok t').
Proof.
  induction items as [|[id address] rest IH]; intros Hsafe t out Hg Hfind.
  - cbn. eauto.
  - assert (Hrest : raises_nothing element_path t0 rest input_dict).
    { intros i a u Hin. apply Hsafe. right. exact Hin. }
    cbn [append_loop]. unfold dict_in, dict_item.
    destruct (dict_get input_dict address) as [units|] eqn:Hunits;
      [|apply IH; assumption].
    destruct (Hsafe id address units (or_introl eq_refl) Hunits)
      as (Hquote & Hxml & Hchild).
    rewrite (Hfind id Hquote).
    destruct (find element_path t0 id) as [[p|]|e] eqn:E0.
    + destruct (@find_sound element_path t0 id p Hquote E0) as (e0 & Hp0 & _).
      destruct (Hg p e0 Hp0) as (e1 & Hp1 & _ & Hlen).
      rewrite Hp1. cbn [option_map].
      destruct (children e1) as [|c cs] eqn:Ec.
      * exfalso. apply (Hchild p e0 eq_refl Hp0).
        destruct (children e0); [reflexivity | simpl in Hlen; lia].
      * cbn [bind]. unfold new_dwelling_tag. rewrite Hxml.
        apply IH; [exact Hrest | apply grown_append, Hg |].
        intros i Hi. rewrite (@find_append_at t p units i Hi). apply Hfind, Hi.
    + apply IH; assumption.
    + rewrite (@find_plain element_path t0 id Hquote) in E0. discriminate.
Qed.

(** A loop that raised nothing leaves the answers of [find] as they were. *)
Lemma append_loop_find (input_dict : dict str) (items : list (str * str)) :
  forall (t : element) (out out' : dict str) (t' : element),
    append_loop element_path input_dict items t out = (out', Ok t') ->
    forall id, existsb (Ascii.eqb "'"%char) id = false ->
               find element_path t' id = find element_path t id.
Proof.
  induction items as [|[id address] rest IH]; intros t out out' t'.
  - cbn. intros [= _ <-]. reflexivity.
  - cbn [append_loop].
    destruct (dict_in input_dict address); [|apply IH].
    destruct (find element_path t id) as [[p|]|e]; [|apply IH | discriminate].
    destruct (option_map children (get_at t p)) as [[|c cs]|]; try discriminate.
    unfold bind, new_dwelling_tag.
    destruct (dict_item input_dict address) as [units|]; [|discriminate].
    destruct (xml_compatible units); [|discriminate].
    intros H i Hi. rewrite (IH _ _ _ _ H i Hi). apply find_append_at, Hi.
Qed.

Lemma raises_nothing_plain (xml_tree : element) (element_dict input_dict : dict str) :
  raises_nothing element_path xml_tree element_dict input_dict ->
  plain_ids element_dict input_dict.
Proof.
  intros Hsafe id address Hin Hmatch. unfold dict_in in Hmatch.
  destruct (dict_get input_dict address) as [units|] eqn:Hunits;
    [|discriminate].
  exact (proj1 (Hsafe id address units Hin Hunits)).
Qed.

(** X10, the join: when [append_xml] raises nothing, every entry whose address is
    a key of [input_dict] and whose identifier [find] locates is recorded in
    the output dictionary, and the element located has, in the tree written,
    one more child than before, the last one: the tag [dwelling_units] with
    the value of [input_dict]. *)
Lemma append_xml_join
    (xml_tree : element) (element_dict input_dict output_dict : dict str) :
  NoDup (keys element_dict) ->
  raises_nothing element_path xml_tree element_dict input_dict ->
  exists out' tree',
    append_xml element_path xml_tree element_dict input_dict output_dict
    = (out', Ok tree')
    /\ forall id address units p,
         In (id, address) element_dict ->
         dict_get input_dict address = Some units ->
         find element_path xml_tree id = Ok (Some p) ->
         dict_get out' id = Some address
         /\ exists e e',
              get_at xml_tree p = Some e /\ get_at tree' p = Some e'
              /\ label e' = label e
              /\ map label (children e')
                 = map label (children e) ++ [label (dwelling_tag units)].
Proof.
  intros Hnd Hsafe. unfold append_xml.
  destruct (@append_loop_ok input_dict xml_tree element_dict Hsafe xml_tree
              output_dict (grown_refl _) (fun _ _ => eq_refl))
    as (out' & tree' & Hrun).
  exists out', tree'. split; [exact Hrun|].
  intros id address units p Hin Hunits Hfind.
  pose proof (proj1 (Hsafe id address units Hin Hunits)) as Hquote.
  pose proof (raises_nothing_plain Hsafe) as Hplain.
  destruct (in_split _ _ Hin) as (before & after & ->).
  destruct (plain_ids_app _ _ _ Hplain) as [Hplain_b Hplain_a].
  rewrite keys_app_cons in Hnd.
  pose proof (NoDup_remove_2 _ _ _ Hnd) as Hout.
  assert (Hb : ~ In id (keys before)) by (intros H; apply Hout, in_or_app; auto).
  assert (Ha : ~ In id (keys after)) by (intros H; apply Hout, in_or_app; auto).
  rewrite append_loop_app in Hrun.
  destruct (append_loop element_path input_dict before xml_tree output_dict)
    as [out_b [t_b|e]] eqn:Hbefore; [|discriminate].
  pose proof (append_loop_find _ _ _ _ Hbefore id Hquote) as Hfind_b.
  destruct (@append_loop_untouched element_path input_dict id xml_tree before
              (@quiet_absent input_dict id before Hb) Hplain_b xml_tree
              output_dict (@untouched_refl id xml_tree)) as [_ Hun_b].
  rewrite Hbefore in Hun_b. specialize (Hun_b t_b eq_refl).
  destruct (@find_sound element_path xml_tree id p Hquote Hfind)
    as (e & Hp & Hid).
  destruct (Hun_b p e Hp Hid) as (e_b & Hp_b & Hl_b & Hc_b).
  cbn [append_loop] in Hrun. unfold dict_in, dict_item in Hrun.
  rewrite Hunits, Hfind_b, Hfind, Hp_b in Hrun. cbn [option_map bind] in Hrun.
  destruct (children e_b) as [|c cs] eqn:Ec; [discriminate|].
  unfold new_dwelling_tag in Hrun.
  destruct (xml_compatible units); [|discriminate].
  set (t1 := append_at t_b p (dwelling_tag units)) in *.
  destruct (@append_loop_untouched element_path input_dict id t1 after
              (@quiet_absent input_dict id after Ha) Hplain_a t1
              (dict_set out_b id address) (@untouched_refl id t1))
    as [Hget Hun_a].
  rewrite Hrun in Hget, Hun_a. cbn [fst snd] in Hget, Hun_a.
  split; [rewrite Hget; apply dict_get_set_same|].
  assert (Hp1 : get_at t1 p
                = Some (Element (tag e_b) (attrib e_b)
                                (children e_b ++ [dwelling_tag units])))
    by (apply append_at_same, Hp_b).
  destruct (Hun_a tree' eq_refl p _ Hp1) as (e' & Hp' & Hl' & Hc').
  { change (get e_b "id" = Some id). rewrite (label_get _ Hl_b). exact Hid. }
  exists e, e'. split; [exact Hp|]. split; [exact Hp'|]. split.
  - rewrite Hl'. exact Hl_b.
  - rewrite Hc'. cbn [children]. rewrite map_app.
    rewrite <- Ec in Hc_b. rewrite Hc_b. reflexivity.
Qed.
End JoinFacts.

(** * parse_address: what it returns *)

Lemma expand_first_value (p : str) (rest : list str) :
  token p -> expand_first (p :: rest) = Ok (expand p :: rest).
Proof.
  intros Hp. unfold expand_first, expand, dict_in, dict_item.
  rewrite (lower_token Hp).
  destruct (dict_get street_types_lower p); reflexivity.
Qed.

Lemma token_last_part (l : list str) :
  Forall token l -> l <> [] -> token (last_part l).
Proof.
  intros Hl Hne. unfold last_part.
  destruct (exists_last Hne) as (front & q & ->).
  rewrite last_last. apply Forall_app in Hl as [_ Hq].
  inversion Hq; assumption.
Qed.

Lemma expand_last_value (l : list str) :
  Forall token l -> l <> [] ->
  expand_last l = Ok (removelast l ++ [expand (last_part l)]).
Proof.
  intros Hl Hne. pose proof (token_last_part Hl Hne) as Hq.
  destruct l as [|p rest]; [congruence|].
  unfold expand_last, expand, dict_in, dict_item.
  rewrite (lower_token Hq).
  destruct (dict_get street_types_lower (last_part (p :: rest))); cbn [bind];
    [reflexivity|].
  f_equal. apply app_removelast_last. discriminate.
Qed.

Lemma token_expand (p : str) : token p -> token (expand p).
Proof.
  intros Hp. unfold expand.
  destruct (dict_get street_types_lower p) as [v|] eqn:E; [|exact Hp].
  apply expansion_token.
  exact (dict_get_forallb expansion _ _ street_types_lower_expansions E).
Qed.

Lemma expand_idem (p : str) : expand (expand p) = expand p.
Proof.
  unfold expand at 2 3.
  destruct (dict_get street_types_lower p) as [v|] eqn:E.
  - pose proof (dict_get_forallb expansion _ _ street_types_lower_expansions E)
      as Hx.
    pose proof (expansion_not_key _ Hx) as Hk.
    rewrite (lower_token (expansion_token _ Hx)) in Hk.
    unfold dict_in in Hk. unfold expand.
    destruct (dict_get street_types_lower v); [discriminate | reflexivity].
  - unfold expand. rewrite E. reflexivity.
Qed.

Lemma expand_ends_steps (p : str) (rest : list str) :
  removelast (expand p :: rest) ++ [expand (last_part (expand p :: rest))]
  = expand_ends (p :: rest).
Proof.
  destruct rest as [|q rest]; [|reflexivity].
  cbn. rewrite expand_idem. reflexivity.
Qed.

Lemma expand_ends_tokens (l : list str) :
  Forall token l -> Forall token (expand_ends l).
Proof.
  intros Hl. destruct l as [|p rest]; [constructor|].
  inversion Hl as [|? ? Hp Hrest]; subst.
  destruct rest as [|q rest].
  - constructor; [apply token_expand, Hp | constructor].
  - cbn [expand_ends]. constructor; [apply token_expand, Hp|].
    apply Forall_app. split.
    + apply Forall_forall. intros t Ht.
      rewrite Forall_forall in Hrest. apply Hrest.
      rewrite (app_removelast_last (l := q :: rest) []) by discriminate.
      apply in_or_app. left. exact Ht.
    + constructor; [|constructor]. apply token_expand.
      apply (token_last_part Hrest). discriminate.
Qed.

Lemma expand_ends_nonempty (l : list str) : l <> [] -> expand_ends l <> [].
Proof. destruct l as [|p [|q rest]]; [congruence | discriminate | discriminate]. Qed.

Lemma drop_last_two_tokens (sp : list str) :
  Forall token sp -> Forall token (drop_last_two sp).
Proof.
  unfold drop_last_two. rewrite !Forall_forall.
  intros H t Ht. apply H. eapply In_firstn, Ht.
Qed.

(** X1: [parse_address] in closed form.  With no token the cleaned address
    is returned; with no street token left after the unit branch the result
    is [IndexError]; otherwise the result is the house number (with the unit
    joined by a comma when one is detected) followed by the street tokens
    left, the first and the last of them replaced by their entries in the
    table; the lookups never raise [KeyError]. *)
Theorem parse_address_characterised (raw : str) :
  parse_address raw
  = match split (clean raw) with
    | [] => Ok (clean raw)
    | street_number :: street_parts =>
        let unit := unit_detected street_parts in
        match (if unit then drop_last_two street_parts else street_parts) with
        | [] => Raise IndexError
        | (_ :: _) as left_over =>
            Ok (join space
                     ((if unit
                       then join "," [street_number; last_part street_parts]
                       else street_number) :: expand_ends left_over))
        end
    end.
Proof.
  unfold parse_address. pose proof (split_clean_tokens raw) as Htok.
  destruct (split (clean raw)) as [|street_number sp]; [reflexivity|].
  inversion Htok as [|? ? _ Hsp]; subst. cbv zeta.
  assert (Hleft : Forall token
                    (if unit_detected sp then drop_last_two sp else sp)).
  { destruct (unit_detected sp); [apply drop_last_two_tokens|]; exact Hsp. }
  destruct (if unit_detected sp then drop_last_two sp else sp) as [|p rest];
    [reflexivity|].
  inversion Hleft as [|? ? Hp Hrest]; subst.
  rewrite (expand_first_value rest Hp). cbn [bind].
  rewrite expand_last_value;
    [|constructor; [apply token_expand, Hp | exact Hrest] | discriminate].
  cbn [bind]. rewrite expand_ends_steps. f_equal. fold space.
  apply join_number_name, expand_ends_nonempty. discriminate.
Qed.

Lemma c_isspace_lower_fixed (c : ascii) : c_isspace c = true -> c_lower c = c.
Proof. each_char c. Qed.

Lemma result_char_token (c : ascii) : c_token c = true -> result_char c = true.
Proof.
  intros H. unfold result_char.
  rewrite (c_token_word _ H), (c_token_lower _ H), Ascii.eqb_refl. reflexivity.
Qed.

Lemma result_char_space (c : ascii) : c_isspace c = true -> result_char c = true.
Proof.
  intros H. unfold result_char.
  rewrite H, (c_isspace_lower_fixed _ H), Ascii.eqb_refl, orb_true_r.
  reflexivity.
Qed.

Lemma result_chars_token (t : str) : token t -> forallb result_char t = true.
Proof.
  intros [_ H]. rewrite forallb_forall in *.
  intros c Hc. apply result_char_token, H, Hc.
Qed.

Lemma forallb_join (P : ascii -> bool) (sep : str) (l : list str) :
  forallb P sep = true ->
  Forall (fun t => forallb P t = true) l ->
  forallb P (join sep l) = true.
Proof.
  intros Hsep. induction 1 as [|t l Ht Hl IH]; [reflexivity|].
  destruct l as [|t2 l]; [exact Ht|].
  rewrite join_cons, !forallb_app, Ht, Hsep. exact IH.
Qed.

(** X2: every character of a result of [parse_address] is lowercase and is a
    word character, whitespace or the comma: no other punctuation and no
    capital letter is left. *)
Theorem parse_address_result_chars (raw x : str) :
  parse_address raw = Ok x -> forallb result_char x = true.
Proof.
  unfold parse_address. pose proof (split_clean_tokens raw) as Htok.
  destruct (split (clean raw)) as [|street_number sp] eqn:Hsplit.
  - intros [= <-]. apply forallb_forall. intros c Hc.
    destruct (clean_chars _ _ Hc);
      [apply result_char_space | apply result_char_token]; assumption.
  - inversion Htok as [|? ? Hnum Hsp]; subst. cbv zeta.
    assert (Hleft : Forall token
                      (if unit_detected sp then drop_last_two sp else sp)).
    { destruct (unit_detected sp); [apply drop_last_two_tokens|]; exact Hsp. }
    destruct (if unit_detected sp then drop_last_two sp else sp)
      as [|p rest] eqn:Eleft; [discriminate|].
    inversion Hleft as [|? ? Hp Hrest]; subst.
    rewrite (expand_first_value rest Hp). cbn [bind].
    rewrite expand_last_value;
      [|constructor; [apply token_expand, Hp | exact Hrest] | discriminate].
    cbn [bind]. rewrite expand_ends_steps.
    set (y := join _ [_; _]). intros [= <-]. subst y.
    apply forallb_join; [reflexivity|].
    constructor; [|constructor; [|constructor]].
    + destruct (unit_detected sp) eqn:Hunit;
        [|apply result_chars_token, Hnum].
      apply forallb_join; [reflexivity|].
      constructor; [apply result_chars_token, Hnum|].
      constructor; [|constructor]. apply result_chars_token.
      apply (token_last_part Hsp). intros ->. discriminate Hunit.
    + apply forallb_join; [reflexivity|].
      apply Forall_forall. intros t Ht. apply result_chars_token.
      pose proof (expand_ends_tokens Hleft) as Hall.
      rewrite Forall_forall in Hall. apply Hall, Ht.
Qed.

Lemma parse_address_result_chars_witness :
  parse_address "100 Pine St., Apt. #4" = Ok (str_of_string "100,4 pine street")
  /\ forallb result_char (str_of_string "100,4 pine street") = true.
Proof.
  assert (H : parse_address "100 Pine St., Apt. #4"
              = Ok (str_of_string "100,4 pine street"))
    by (vm_compute; reflexivity).
  split; [exact H | exact (parse_address_result_chars _ H)].
Defined.

(** * parse_address: parsing a result again *)

Lemma In_lstrip_solid (s : str) (c : ascii) :
  In c s -> c_isspace c = false -> In c (lstrip s).
Proof.
  induction s as [|x s IH]; [contradiction|]. intros Hin Hc. cbn [lstrip].
  destruct (c_isspace x) eqn:Hx; [|exact Hin].
  destruct Hin as [-> | Hin]; [congruence | apply IH; assumption].
Qed.

Lemma In_strip_solid (s : str) (c : ascii) :
  In c s -> c_isspace c = false -> In c (strip s).
Proof.
  intros Hin Hc. unfold strip, rstrip. rewrite <- in_rev.
  apply In_lstrip_solid; [|exact Hc]. rewrite <- in_rev.
  apply In_lstrip_solid; assumption.
Qed.

(** A string that holds a token character has a token once cleaned. *)
Lemma solid_not_blank (x : str) (c : ascii) :
  In c x -> c_token c = true -> split (clean x) <> [].
Proof.
  intros Hin Hc Hsplit.
  pose proof (split_nil_blank _ Hsplit) as Hblank.
  rewrite forallb_forall in Hblank.
  assert (Hclean : In c (clean x)).
  { unfold clean, re_sub_punct. apply filter_In. split.
    - apply In_strip_solid; [|apply c_token_not_space, Hc].
      unfold lower. rewrite <- (c_token_lower _ Hc). apply in_map, Hin.
    - rewrite (c_token_word _ Hc). reflexivity. }
  pose proof (Hblank c Hclean) as Hs.
  rewrite (c_token_not_space _ Hc) in Hs. discriminate.
Qed.

Lemma token_app (a b : str) : token a -> token b -> token (a ++ b).
Proof.
  intros [Ha Hca] [_ Hcb]. split.
  - destruct a; [congruence | discriminate].
  - rewrite forallb_app, Hca, Hcb. reflexivity.
Qed.

Lemma join_tokens_cons (ts : list str) :
  Forall token ts -> ts <> [] -> exists c r, join space ts = c :: r.
Proof.
  intros Hts Hne. destruct ts as [|t ts]; [congruence|].
  inversion Hts as [|? ? [Ht _] _]; subst.
  destruct t as [|c t]; [congruence|].
  destruct ts; [exists c, t; reflexivity|].
  rewrite join_cons. eexists. eexists. reflexivity.
Qed.

(** The form of a result when the address has a token: the house number,
    with the unit joined by a comma when one is detected, a space, and the
    street tokens left, joined by spaces. *)
Lemma parse_address_form (raw x street_number : str) (sp : list str) :
  split (clean raw) = street_number :: sp ->
  parse_address raw = Ok x ->
  exists name : list str,
    Forall token name /\ name <> []
    /\ x = (if unit_detected sp
            then street_number ++ str_of_string "," ++ last_part sp
            else street_number) ++ space ++ join space name.
Proof.
  intros Hsplit. unfold parse_address.
  pose proof (split_clean_tokens raw) as Htok. rewrite Hsplit in *.
  inversion Htok as [|? ? Hnum Hsp]; subst. cbv zeta.
  assert (Hleft : Forall token
                    (if unit_detected sp then drop_last_two sp else sp)).
  { destruct (unit_detected sp); [apply drop_last_two_tokens|]; exact Hsp. }
  destruct (if unit_detected sp then drop_last_two sp else sp)
    as [|p rest] eqn:Eleft; [discriminate|].
  inversion Hleft as [|? ? Hp Hrest]; subst.
  rewrite (expand_first_value rest Hp). cbn [bind].
  rewrite expand_last_value;
    [|constructor; [apply token_expand, Hp | exact Hrest] | discriminate].
  cbn [bind]. rewrite expand_ends_steps.
  set (y := join _ [_; _]). intros [= <-]. subst y.
  exists (expand_ends (p :: rest)).
  split; [apply expand_ends_tokens, Hleft|].
  split; [apply expand_ends_nonempty; discriminate|].
  destruct (unit_detected sp); reflexivity.
Qed.

(** A result for an address with a token holds a token character. *)
Lemma parse_address_solid (raw x : str) :
  split (clean raw) <> [] ->
  parse_address raw = Ok x ->
  exists c, In c x /\ c_token c = true.
Proof.
  intros Hne Hx.
  destruct (split (clean raw)) as [|street_number sp] eqn:Hsplit; [congruence|].
  pose proof (split_clean_tokens raw) as Htok. rewrite Hsplit in Htok.
  inversion Htok as [|? ? [Hnum Hchars] _]; subst.
  destruct (parse_address_form _ Hsplit Hx) as (name & _ & _ & ->).
  destruct street_number as [|c t]; [congruence|].
  cbn [forallb] in Hchars. apply andb_true_iff in Hchars as [Hc _].
  exists c. split; [|exact Hc].
  destruct (unit_detected sp); left; reflexivity.
Qed.

(** A result that holds a comma changes when it is parsed again: the comma
    is removed as punctuation, so the unit becomes part of the house
    number. *)
Lemma parse_address_comma_moves (z w : str) :
  parse_address z = Ok w -> In ","%char w -> parse_address w <> Ok w.
Proof.
  intros Hz Hcomma Hw.
  assert (Hno : forall s, In ","%char (clean s) -> False).
  { intros s Hs. destruct (clean_chars _ _ Hs) as [H | H];
      vm_compute in H; discriminate. }
  destruct (split (clean z)) as [|sn sp] eqn:Hsplit.
  - destruct (parse_address_blank _ Hsplit) as [H1 _].
    rewrite H1 in Hz. injection Hz as <-. exact (Hno _ Hcomma).
  - pose proof (split_clean_tokens z) as Htok. rewrite Hsplit in Htok.
    inversion Htok as [|? ? Hsn Hsp]; subst.
    destruct (unit_detected sp) eqn:Hunit.
    + destruct (parse_address_form _ Hsplit Hz) as (name & Hname & Hne & Ew).
      rewrite Hunit in Ew.
      assert (Hu : token (last_part sp)).
      { apply (token_last_part Hsp). intros ->. discriminate Hunit. }
      set (u := last_part sp) in *.
      assert (Hclean : clean w = join space ((sn ++ u) :: name)).
      { destruct (join_tokens_cons Hname Hne) as (c & r & Ej).
        unfold clean.
        assert (Hlow : lower w = w).
        { rewrite Ew, !lower_app, (lower_token Hsn), (lower_token Hu),
            (lower_join Hname). reflexivity. }
        assert (Hstrip : strip w = w).
        { apply strip_solid.
          - rewrite Ew, <- !app_assoc. apply token_hd, Hsn.
          - rewrite Ew, Ej.
            replace ((sn ++ str_of_string "," ++ u) ++ space ++ c :: r)
              with (((sn ++ str_of_string "," ++ u) ++ space) ++ c :: r)
              by (rewrite <- !app_assoc; reflexivity).
            rewrite last_app_cons, <- Ej. apply join_last; assumption. }
        rewrite Hlow, Hstrip, Ew, !re_sub_punct_app,
          (re_sub_punct_token Hsn), (re_sub_punct_token Hu),
          (re_sub_punct_join Hname).
        destruct name as [|q rest]; [congruence|].
        rewrite join_cons, <- !app_assoc. reflexivity. }
      assert (Hall : Forall token ((sn ++ u) :: name))
        by (constructor; [apply token_app; assumption | exact Hname]).
      assert (Hsplit' : split (clean w) = (sn ++ u) :: name)
        by (rewrite Hclean; apply split_join, Hall).
      destruct (parse_address_form _ Hsplit' Hw) as (name' & _ & _ & Ew').
      rewrite Ew in Ew' at 1.
      assert (E : str_of_string "," ++ u ++ space ++ join space name
                  = u ++ (if unit_detected name
                          then str_of_string "," ++ last_part name
                          else []) ++ space ++ join space name').
      { apply (app_inv_head sn).
        rewrite <- !app_assoc in Ew'. rewrite Ew'.
        destruct (unit_detected name); rewrite <- ?app_assoc; reflexivity. }
      destruct Hu as [Hune Huc]. destruct u as [|c u']; [congruence|].
      injection E as <- _. vm_compute in Huc. discriminate.
    + destruct (parse_address_plain _ Hsplit Hunit Hz) as (sp' & -> & Htok' & _).
      rewrite <- (clean_join Htok') in Hcomma. exact (Hno _ Hcomma).
Qed.

(** C6, amended.  Let [x] be a result of [parse_address].  When [x] holds no
    comma, parsing it succeeds and gives a fixed point.  And whenever
    parsing [x] returns a string [y], parsing [y] gives [y] again, which is
    the equation [normalize(normalize(x)) == normalize(x)], exactly when [y]
    holds no comma, that is, when no unit number is detected in [x].  The
    result ["100,4 pine street"] is such an [x]: it parses to
    ["1004 pine street"], which parses to itself. *)
Theorem parse_address_idempotent_unless_unit (raw x : str) :
  parse_address raw = Ok x ->
  (~ In ","%char x ->
   exists y, parse_address x = Ok y /\ parse_address y = Ok y)
  /\ forall y, parse_address x = Ok y ->
               (parse_address y = Ok y <-> ~ In ","%char y).
Proof.
  intros Hx. split.
  - intros Hcomma.
    destruct (split (clean raw)) as [|street_number sp] eqn:Hsplit.
    + destruct (parse_address_blank _ Hsplit) as [H1 H2].
      rewrite H1 in Hx. injection Hx as <-.
      exists []. split; [exact H2 | reflexivity].
    + exists x.
      assert (H : parse_address x = Ok x).
      { apply (parse_address_fixed_point raw); [assumption | assumption |].
        rewrite Hsplit. discriminate. }
      split; exact H.
  - intros y Hy. split.
    + intros Hfix Hcomma. exact (@parse_address_comma_moves x y Hy Hcomma Hfix).
    + intros Hcomma.
      destruct (split (clean x)) as [|n sp] eqn:Hsx.
      * destruct (parse_address_blank _ Hsx) as [H1 _].
        rewrite H1 in Hy. injection Hy as <-.
        destruct (split (clean raw)) as [|n sp] eqn:Hsr.
        -- destruct (parse_address_blank _ Hsr) as [H3 _].
           rewrite H3 in Hx. injection Hx as <-.
           rewrite (clean_blank _ (split_nil_blank _ Hsr)). reflexivity.
        -- exfalso.
           destruct (@parse_address_solid raw x) as (c & Hin & Hc);
             [rewrite Hsr; discriminate | exact Hx |].
           exact (@solid_not_blank x c Hin Hc Hsx).
      * apply (parse_address_fixed_point x); [exact Hy | exact Hcomma |].
        rewrite Hsx. discriminate.
Qed.

Lemma parse_address_idempotent_unless_unit_witness :
  parse_address "100 Pine St Apt 4" = Ok (str_of_string "100,4 pine street")
  /\ parse_address "100,4 pine street" = Ok (str_of_string "1004 pine street")
  /\ (parse_address "1004 pine street" = Ok (str_of_string "1004 pine street")
      <-> ~ In ","%char (str_of_string "1004 pine street")).
Proof.
  assert (Hx : parse_address "100 Pine St Apt 4"
               = Ok (str_of_string "100,4 pine street"))
    by (vm_compute; reflexivity).
  assert (Hy : parse_address "100,4 pine street"
               = Ok (str_of_string "1004 pine street"))
    by (vm_compute; reflexivity).
  split; [exact Hx|]. split; [exact Hy|].
  exact (proj2 (@parse_address_idempotent_unless_unit _ _ Hx) _ Hy).
Defined.

(** * Dictionaries: keys *)

Lemma dict_in_keys {V : Type} (d : dict V) (k : str) :
  dict_in d k = true <-> In k (keys d).
Proof.
  unfold dict_in, keys. induction d as [|[k0 v0] d IH]; simpl.
  - split; [discriminate | contradiction].
  - destruct (str_eqb k0 k) eqn:E.
    + apply str_eqb_eq in E. split; auto.
    + apply str_eqb_neq in E. rewrite IH. split; [auto | intros [H | H]; congruence].
Qed.

Lemma keys_dict_set {V : Type} (d : dict V) (k : str) (v : V) :
  keys (dict_set d k v) = if dict_in d k then keys d else keys d ++ [k].
Proof.
  unfold dict_in, keys. induction d as [|[k0 v0] d IH]; simpl; [reflexivity|].
  destruct (str_eqb k0 k); simpl; [reflexivity|].
  rewrite IH. destruct (dict_get d k); reflexivity.
Qed.

Lemma dict_set_NoDup {V : Type} (d : dict V) (k : str) (v : V) :
  NoDup (keys d) -> NoDup (keys (dict_set d k v)).
Proof.
  intros H. rewrite keys_dict_set. destruct (dict_in d k) eqn:E; [exact H|].
  apply NoDup_app; [exact H | repeat constructor; intros [] |].
  intros x Hx [<- | []]. apply dict_in_keys in Hx. congruence.
Qed.

Lemma dict_get_In {V : Type} (d : dict V) (k : str) (v : V) :
  NoDup (keys d) -> (dict_get d k = Some v <-> In (k, v) d).
Proof.
  unfold keys. induction d as [|[k0 v0] d IH]; simpl; intros Hnd.
  - split; [discriminate | contradiction].
  - inversion Hnd as [|? ? Hk Hd]; subst.
    destruct (str_eqb k0 k) eqn:E.
    + apply str_eqb_eq in E as ->. split.
      * intros [= ->]. left. reflexivity.
      * intros [[= ->] | Hin]; [reflexivity|].
        exfalso. apply Hk. apply in_map_iff. exists (k, v). auto.
    + apply str_eqb_neq in E. rewrite (IH Hd). split; [auto|].
      intros [[= -> _] | Hin]; [congruence | exact Hin].
Qed.

Lemma dict_in_get {V : Type} (d : dict V) (k : str) :
  dict_in d k = true <-> exists v, dict_get d k = Some v.
Proof.
  unfold dict_in. destruct (dict_get d k) as [v|].
  - split; eauto.
  - split; [discriminate | intros [v H]; discriminate].
Qed.

(** A list of entries with distinct keys is its own dictionary. *)
Lemma dict_of_items_from {V : Type} (items : list (str * V)) :
  forall acc : dict V,
    NoDup (keys (acc ++ items)) ->
    fold_left (fun d kv => dict_set d (fst kv) (snd kv)) items acc = acc ++ items.
Proof.
  induction items as [|[k v] items IH]; intros acc Hnd.
  - cbn. rewrite app_nil_r. reflexivity.
  - cbn [fold_left fst snd].
    assert (Hset : dict_set acc k v = acc ++ [(k, v)]).
    { clear IH. unfold keys in Hnd. rewrite map_app in Hnd. cbn [map fst] in Hnd.
      apply NoDup_remove_2 in Hnd.
      assert (Hk : ~ In k (keys acc)) by (intros H; apply Hnd, in_or_app; auto).
      clear Hnd. induction acc as [|[k0 v0] acc IHacc]; [reflexivity|].
      cbn [dict_set app]. destruct (str_eqb k0 k) eqn:E.
      - apply str_eqb_eq in E. exfalso. apply Hk. left. exact E.
      - rewrite IHacc; [reflexivity|]. intros H. apply Hk. right. exact H. }
    rewrite Hset, IH; rewrite <- app_assoc; [reflexivity | exact Hnd].
Qed.

Lemma dict_of_items_NoDup {V : Type} (items : list (str * V)) :
  NoDup (keys items) -> dict_of_items items = items.
Proof. intros H. unfold dict_of_items. apply (dict_of_items_from items []), H. Qed.

(** The entry of a key after a loop of conditional assignments is the one
    the last element that assigns to the key gives. *)
Section LastWins.
Variable A V : Type.
Variable f : A -> option (str * V).

Lemma assign_NoDup (xs : list A) :
  forall d, NoDup (keys d) -> NoDup (keys (fold_left (assign f) xs d)).
Proof.
  induction xs as [|x xs IH]; intros d Hd; [exact Hd|].
  cbn [fold_left]. apply IH. unfold assign.
  destruct (f x) as [[k v]|]; [apply dict_set_NoDup|]; exact Hd.
Qed.

Lemma assign_get (xs : list A) (k : str) (v : V) :
  dict_get (fold_left (assign f) xs []) k = Some v <->
  exists before x after,
    xs = before ++ x :: after /\ f x = Some (k, v)
    /\ (forall x', In x' after -> forall v', f x' <> Some (k, v')).
Proof.
  induction xs as [|x xs IH] using rev_ind.
  - simpl. split; [discriminate|].
    intros (before & x & after & H & _). destruct before; discriminate.
  - rewrite fold_left_app. cbn [fold_left]. unfold assign at 1.
    assert (Hlast : forall before x0 after,
               xs ++ [x] = before ++ x0 :: after ->
               (after = [] /\ x0 = x /\ before = xs)
               \/ (exists after', after = after' ++ [x]
                                  /\ xs = before ++ x0 :: after')).
    { intros before x0 after H.
      destruct after as [|y after] using rev_ind.
      - apply app_inj_tail in H as [-> ->]. auto.
      - clear IHafter. right. exists after.
        rewrite app_comm_cons, app_assoc in H.
        apply app_inj_tail in H as [-> ->]. auto. }
    assert (Hshift : forall k0 v0,
               (exists before x0 after,
                   xs = before ++ x0 :: after /\ f x0 = Some (k0, v0)
                   /\ (forall x', In x' after -> forall v', f x' <> Some (k0, v')))
               -> (forall v', f x <> Some (k0, v'))
               -> exists before x0 after,
                   xs ++ [x] = before ++ x0 :: after /\ f x0 = Some (k0, v0)
                   /\ (forall x', In x' after -> forall v', f x' <> Some (k0, v'))).
    { intros k0 v0 (before & x0 & after & -> & Hf & Hafter) Hx.
      exists before, x0, (after ++ [x]). rewrite <- app_assoc.
      repeat split; auto.
      intros x' Hin. apply in_app_or in Hin as [Hin | [<- | []]]; auto. }
    destruct (f x) as [[k1 v1]|] eqn:Ex.
    + rewrite dict_get_set. destruct (str_eqb k1 k) eqn:Ek.
      * apply str_eqb_eq in Ek as ->. split.
        -- intros [= <-]. exists xs, x, []. repeat split; auto; intros x' [].
        -- intros (before & x0 & after & H & Hf & Hafter).
           destruct (Hlast _ _ _ H) as [(-> & -> & ->) | (after' & -> & ->)];
             [congruence|].
           exfalso.
           apply (Hafter x (in_or_app _ _ _ (or_intror (in_eq _ _))) v1); auto.
      * apply str_eqb_neq in Ek. rewrite IH. split.
        -- intros H. apply Hshift; [exact H|]. intros v'. congruence.
        -- intros (before & x0 & after & H & Hf & Hafter).
           destruct (Hlast _ _ _ H) as [(-> & -> & ->) | (after' & -> & ->)];
             [congruence|].
           exists before, x0, after'. repeat split; auto.
           intros x' Hin. apply Hafter, in_or_app. left. exact Hin.
    + rewrite IH. split.
      * intros H. apply Hshift; [exact H|]. intros v'. congruence.
      * intros (before & x0 & after & H & Hf & Hafter).
        destruct (Hlast _ _ _ H) as [(-> & -> & ->) | (after' & -> & ->)];
          [congruence|].
        exists before, x0, after'. repeat split; auto.
        intros x' Hin. apply Hafter, in_or_app. left. exact Hin.
Qed.
End LastWins.

(** * extract_csv_data: what it returns *)

Lemma nth_error_two (row : list str) :
  match nth_error row 2 with
  | Some _ => (3 <=? length row) = true
  | None => (3 <=? length row) = false
  end.
Proof.
  destruct (nth_error row 2) eqn:E.
  - apply Nat.leb_le. assert (2 < length row) by (apply nth_error_Some; congruence).
    lia.
  - apply Nat.leb_gt. apply nth_error_None in E. lia.
Qed.

Lemma csv_row_spec (d : dict str) (row : list str) :
  csv_row d row = if row_ok row then Ok (row_step d row) else Raise IndexError.
Proof.
  destruct row as [|raw rest]; [reflexivity|].
  unfold csv_row, row_ok, row_step, row_entry.
  change (getitem (raw :: rest) 0) with (@Ok str raw). cbn [bind].
  destruct (parse_address raw) as [address|e] eqn:Hp; cbn [bind].
  - destruct (length address <? 5); [reflexivity|]. cbn [orb].
    unfold getitem. pose proof (nth_error_two (raw :: rest)) as H.
    destruct (nth_error (raw :: rest) 2); rewrite H; reflexivity.
  - rewrite (parse_address_exn _ Hp). reflexivity.
Qed.

Lemma csv_rows_spec (rows : list (list str)) :
  forall d,
    csv_rows d rows
    = if forallb row_ok rows then Ok (fold_left row_step rows d)
      else Raise IndexError.
Proof.
  induction rows as [|row rows IH]; intros d; [reflexivity|].
  cbn [csv_rows forallb fold_left]. rewrite csv_row_spec.
  destruct (row_ok row); [cbn [bind andb]; apply IH | reflexivity].
Qed.

(** X3: when [extract_csv_data] raises.  On a file without lines
    [next(reader)] raises [StopIteration]; otherwise the extraction returns
    a dictionary when every row after the header is empty, or has a first
    column that normalises to fewer than 5 characters, or normalises and has
    a third column; in every other case it raises [IndexError]. *)
Theorem extract_csv_data_outcome (reader : list (list str)) :
  match reader with
  | [] => extract_csv_data reader = Raise StopIteration
  | _ :: rows =>
      if forallb row_ok rows
      then exists d, extract_csv_data reader = Ok d
      else extract_csv_data reader = Raise IndexError
  end.
Proof.
  destruct reader as [|header rows]; [reflexivity|].
  unfold extract_csv_data. rewrite csv_rows_spec.
  destruct (forallb row_ok rows); cbn [bind]; eauto.
Qed.

(** *** Sorting *)

Lemma insert_sorted_perm (x : str * str) (l : list (str * str)) :
  Permutation (insert_sorted x l) (x :: l).
Proof.
  induction l as [|y l IH]; [reflexivity|]. cbn [insert_sorted].
  destruct (item_leb x y); [reflexivity|].
  rewrite IH. apply perm_swap.
Qed.

Lemma sorted_perm (l : list (str * str)) : Permutation (sorted l) l.
Proof.
  induction l as [|x l IH]; [reflexivity|]. cbn [sorted fold_right].
  fold (sorted l). rewrite insert_sorted_perm, IH. reflexivity.
Qed.

Lemma str_compare_antisym (a b : str) :
  str_compare b a = CompOpp (str_compare a b).
Proof.
  revert b. induction a as [|x a IH]; destruct b as [|y b]; try reflexivity.
  cbn [str_compare]. rewrite (Nat.compare_antisym (ord x) (ord y)).
  destruct (ord x ?= ord y); cbn [CompOpp]; auto.
Qed.

Lemma ord_inj (x y : ascii) : ord x = ord y -> x = y.
Proof.
  unfold ord. intros H.
  rewrite <- (ascii_nat_embedding x), <- (ascii_nat_embedding y), H.
  reflexivity.
Qed.

Lemma str_compare_eq (a b : str) : str_compare a b = Eq -> a = b.
Proof.
  revert b. induction a as [|x a IH]; destruct b as [|y b]; try discriminate;
    [reflexivity|].
  cbn [str_compare]. destruct (ord x ?= ord y) eqn:E; try discriminate.
  apply Nat.compare_eq in E. apply ord_inj in E as ->.
  intros H. rewrite (IH _ H). reflexivity.
Qed.

Lemma item_leb_total (x y : str * str) :
  item_leb x y = false -> item_leb y x = true.
Proof.
  unfold item_leb.
  rewrite (str_compare_antisym (fst x) (fst y)),
          (str_compare_antisym (snd x) (snd y)).
  destruct (str_compare (fst x) (fst y)); cbn [CompOpp]; try congruence.
  destruct (str_compare (snd x) (snd y)); cbn [CompOpp]; congruence.
Qed.

Lemma insert_sorted_Sorted (x : str * str) (l : list (str * str)) :
  Sorted item_le l -> Sorted item_le (insert_sorted x l).
Proof.
  induction 1 as [|y l Hl IH Hhd]; [repeat constructor|].
  cbn [insert_sorted]. destruct (item_leb x y) eqn:E.
  - constructor; [constructor; assumption | constructor; exact E].
  - constructor; [exact IH|].
    destruct l as [|z l]; cbn [insert_sorted].
    + constructor. apply item_leb_total, E.
    + destruct (item_leb x z).
      * constructor. apply item_leb_total, E.
      * constructor. inversion Hhd; assumption.
Qed.

Lemma sorted_Sorted (l : list (str * str)) : Sorted item_le (sorted l).
Proof.
  induction l as [|x l IH]; [constructor|].
  cbn [sorted fold_right]. apply insert_sorted_Sorted, IH.
Qed.

Lemma Sorted_key_lt (l : list (str * str)) :
  NoDup (keys l) -> Sorted item_le l -> Sorted key_lt l.
Proof.
  intros Hnd. induction 1 as [|x l Hl IH Hhd]; [constructor|].
  unfold keys in Hnd. cbn [map] in Hnd. inversion Hnd as [|? ? Hx Hnd']; subst.
  constructor; [apply IH, Hnd'|].
  destruct Hhd as [|y l Hxy]; constructor.
  unfold key_lt. unfold item_le, item_leb in Hxy.
  destruct (str_compare (fst x) (fst y)) eqn:E; [|reflexivity | discriminate].
  exfalso. apply Hx. left. symmetry. apply str_compare_eq, E.
Qed.

(** *** The dictionary returned *)

Lemma row_step_NoDup (rows : list (list str)) :
  forall d, NoDup (keys d) -> NoDup (keys (fold_left row_step rows d)).
Proof. exact (assign_NoDup row_entry rows). Qed.

Lemma extract_csv_data_value (header : list str) (rows : list (list str))
    (d : dict str) :
  extract_csv_data (header :: rows) = Ok d ->
  d = sorted (fold_left row_step rows []).
Proof.
  unfold extract_csv_data. rewrite csv_rows_spec.
  destruct (forallb row_ok rows); [|discriminate]. cbn [bind].
  intros [= <-]. apply dict_of_items_NoDup.
  apply (Permutation_NoDup (l := keys (fold_left row_step rows []))).
  - unfold keys. apply Permutation_map. symmetry. apply sorted_perm.
  - apply row_step_NoDup. constructor.
Qed.

Lemma extract_csv_data_NoDup (reader : list (list str)) (d : dict str) :
  extract_csv_data reader = Ok d -> NoDup (keys d).
Proof.
  destruct reader as [|header rows]; [discriminate|].
  intros H. rewrite (@extract_csv_data_value header rows d H).
  apply (Permutation_NoDup (l := keys (fold_left row_step rows []))).
  - unfold keys. apply Permutation_map. symmetry. apply sorted_perm.
  - apply row_step_NoDup. constructor.
Qed.

Lemma extract_csv_data_unsorted (header : list str) (rows : list (list str))
    (d : dict str) (address units : str) :
  extract_csv_data (header :: rows) = Ok d ->
  (dict_get d address = Some units <->
   dict_get (fold_left (assign row_entry) rows []) address = Some units).
Proof.
  intros H. pose proof (extract_csv_data_NoDup _ H) as Hnd.
  rewrite (@dict_get_In _ d address units Hnd).
  rewrite (@extract_csv_data_value header rows d H).
  change (fold_left (assign row_entry) rows []) with (fold_left row_step rows []).
  rewrite dict_get_In by (apply row_step_NoDup; constructor).
  split; apply Permutation_in; [|symmetry]; apply sorted_perm.
Qed.

(** X4: the later row wins.  In the dictionary that [extract_csv_data]
    returns, an address is mapped to the third column of the last row that
    gives an entry for it, and it has an entry only when some row does. *)
Theorem extract_csv_data_last_row (header : list str) (rows : list (list str))
    (d : dict str) (address units : str) :
  extract_csv_data (header :: rows) = Ok d ->
  (dict_get d address = Some units <->
   exists before row after,
     rows = before ++ row :: after
     /\ row_entry row = Some (address, units)
     /\ (forall row', In row' after ->
                      forall units', row_entry row' <> Some (address, units'))).
Proof.
  intros H. rewrite (@extract_csv_data_unsorted header rows d address units H).
  apply assign_get.
Qed.

Lemma two_rows_extract : extract_csv_data two_rows_file = Ok two_rows_dict.
Proof. vm_compute. reflexivity. Qed.

Lemma extract_csv_data_last_row_witness :
  dict_get two_rows_dict (str_of_string "123 main street")
  = Some (str_of_string "6") <->
  exists before row after,
    tl two_rows_file = before ++ row :: after
    /\ row_entry row = Some (str_of_string "123 main street", str_of_string "6")
    /\ (forall row', In row' after ->
          forall units',
            row_entry row' <> Some (str_of_string "123 main street", units')).
Proof.
  exact (@extract_csv_data_last_row (hd [] two_rows_file) (tl two_rows_file)
           two_rows_dict (str_of_string "123 main street") (str_of_string "6")
           two_rows_extract).
Defined.

(** X5: the dictionary that [extract_csv_data] returns has its keys in
    strictly ascending order of Python's string comparison; in particular
    no key comes twice. *)
Theorem extract_csv_data_ascending (reader : list (list str)) (d : dict str) :
  extract_csv_data reader = Ok d -> Sorted key_lt d /\ NoDup (keys d).
Proof.
  intros H. pose proof (extract_csv_data_NoDup _ H) as Hnd.
  split; [|exact Hnd]. apply Sorted_key_lt; [exact Hnd|].
  destruct reader as [|header rows]; [discriminate|].
  rewrite (@extract_csv_data_value header rows d H). apply sorted_Sorted.
Qed.

Lemma extract_csv_data_ascending_witness :
  Sorted key_lt two_rows_dict /\ NoDup (keys two_rows_dict).
Proof. exact (extract_csv_data_ascending _ two_rows_extract). Defined.

Lemma row_entry_origin (row : list str) (address units : str) :
  row_entry row = Some (address, units) ->
  5 <= length address
  /\ exists raw rest, row = raw :: rest /\ parse_address raw = Ok address
                      /\ nth_error row 2 = Some units.
Proof.
  destruct row as [|raw rest]; [discriminate|]. unfold row_entry.
  destruct (parse_address raw) as [a|] eqn:Hp; [|discriminate].
  destruct (length a <? 5) eqn:E; [discriminate|].
  destruct (nth_error (raw :: rest) 2) as [u|] eqn:Hu; [|discriminate].
  intros [= <- <-]. apply Nat.ltb_ge in E. split; [exact E|].
  exists raw, rest. repeat split; assumption.
Qed.

Lemma extract_csv_data_key_parsed (reader : list (list str)) (d : dict str)
    (address : str) :
  extract_csv_data reader = Ok d ->
  dict_in d address = true ->
  exists raw, parse_address raw = Ok address.
Proof.
  intros H Hin. destruct reader as [|header rows]; [discriminate|].
  apply dict_in_get in Hin as [units Hget].
  apply (@extract_csv_data_unsorted header rows d address units H) in Hget.
  apply assign_get in Hget as (before & row & after & _ & Hrow & _).
  destruct (row_entry_origin _ Hrow) as (_ & raw & rest & _ & Hp & _).
  exists raw. exact Hp.
Qed.

(** X6: every key of the dictionary that [extract_csv_data] returns has at
    least 5 characters and is what [parse_address] returns for the first
    column of some row after the header. *)
Theorem extract_csv_data_keys (reader : list (list str)) (d : dict str)
    (address : str) :
  extract_csv_data reader = Ok d ->
  dict_in d address = true ->
  5 <= length address
  /\ exists row raw rest,
       In row (tl reader) /\ row = raw :: rest
       /\ parse_address raw = Ok address.
Proof.
  intros H Hin. destruct reader as [|header rows]; [discriminate|].
  apply dict_in_get in Hin as [units Hget].
  apply (@extract_csv_data_unsorted header rows d address units H) in Hget.
  apply assign_get in Hget as (before & row & after & -> & Hrow & _).
  destruct (row_entry_origin _ Hrow) as (Hlen & raw & rest & -> & Hp & _).
  split; [exact Hlen|]. exists (raw :: rest), raw, rest.
  split; [apply in_or_app; right; left; reflexivity | auto].
Qed.

Lemma extract_csv_data_keys_witness :
  5 <= length (str_of_string "9 elm avenue")
  /\ exists row raw rest,
       In row (tl two_rows_file) /\ row = raw :: rest
       /\ parse_address raw = Ok (str_of_string "9 elm avenue").
Proof.
  apply (@extract_csv_data_keys two_rows_file two_rows_dict).
  - exact two_rows_extract.
  - vm_compute. reflexivity.
Defined.

(** X7: an address without a comma that is a key of the dictionary of
    [extract_csv_data] and is not blank is in normal form: [parse_address]
    returns it unchanged.  So a string of [extract_osm_data], which is only
    lowercased, can match a record only if it is already normalised (or
    holds a comma). *)
Theorem extract_csv_data_keys_normal (reader : list (list str)) (d : dict str)
    (address : str) :
  extract_csv_data reader = Ok d ->
  dict_in d address = true ->
  ~ In ","%char address ->
  forallb c_isspace address = false ->
  parse_address address = Ok address.
Proof.
  intros H Hin Hcomma Hblank.
  destruct (@extract_csv_data_key_parsed reader d address H Hin) as [raw Hp].
  apply (parse_address_fixed_point raw); [exact Hp | exact Hcomma|].
  intros Hsplit. destruct (parse_address_blank _ Hsplit) as [Hc _].
  rewrite Hc in Hp. injection Hp as <-.
  rewrite (split_nil_blank _ Hsplit) in Hblank. discriminate.
Qed.

Lemma extract_csv_data_keys_normal_witness :
  parse_address "9 elm avenue" = Ok (str_of_string "9 elm avenue").
Proof.
  apply (@extract_csv_data_keys_normal two_rows_file two_rows_dict).
  - exact two_rows_extract.
  - vm_compute. reflexivity.
  - vm_compute. intuition discriminate.
  - vm_compute. reflexivity.
Defined.

(** * extract_osm_data: when it raises, and the dictionary it returns *)

(** X8: when [extract_osm_data] raises.  It returns a dictionary exactly
    when every node or way that carries both address tags has a value for
    each (on its last tag with that key); otherwise joining [None] raises
    [TypeError], and it raises nothing else. *)
Theorem extract_osm_data_outcome (root : element) :
  match extract_osm_data root with
  | Ok _ =>
      forall e, In e (node_way_elements root) -> carries_both e = true ->
                address_string e <> None
  | Raise ex =>
      ex = TypeError
      /\ exists e, In e (node_way_elements root) /\ carries_both e = true
                   /\ address_string e = None
  end.
Proof.
  unfold extract_osm_data.
  pose proof (osm_elements_outcome (xpath_buildings root) []) as H.
  destruct (osm_elements [] (xpath_buildings root)) as [d'|ex].
  - destruct H as [_ Hall]. intros e Hin Hc.
    apply Hall; [apply carries_both_selected; assumption | exact Hc].
  - destruct H as [-> (e & Hin & H)]. split; [reflexivity|].
    exists e. split; [apply node_way_selected, Hin | exact H].
Qed.

Lemma lower_idem (s : str) : lower (lower s) = lower s.
Proof.
  unfold lower. rewrite map_map. apply map_ext. intros c. apply c_lower_idem.
Qed.

Lemma address_string_shape (e : element) (address : str) :
  address_string e = Some address ->
  lower address = address /\ In " "%char address.
Proof.
  unfold address_string.
  destruct (tag_value addr_housenumber e) as [[hn|]|]; try discriminate.
  destruct (tag_value addr_street e) as [[st|]|]; try discriminate.
  intros [= <-]. split; [apply lower_idem|].
  unfold lower. rewrite map_app. apply in_or_app. right.
  left. reflexivity.
Qed.

Lemma entry_step_values (es : list element) (P : str -> Prop) :
  (forall e a, address_string e = Some a -> P a) ->
  forall d,
    NoDup (keys d) /\ (forall id a, dict_get d id = Some a -> P a) ->
    NoDup (keys (fold_left entry_step es d))
    /\ (forall id a, dict_get (fold_left entry_step es d) id = Some a -> P a).
Proof.
  intros HP. induction es as [|e es IH]; intros d Hd; [exact Hd|].
  cbn [fold_left]. apply IH. unfold entry_step.
  destruct (address_string e) as [a|] eqn:Ea; [|exact Hd].
  destruct Hd as [Hnd Hval]. split; [apply dict_set_NoDup, Hnd|].
  intros id a'. rewrite dict_get_set.
  destruct (str_eqb (element_id e) id); [|apply Hval].
  intros [= <-]. apply (HP e a Ea).
Qed.

(** X9: what [extract_osm_data] returns is a dictionary: no identifier
    comes twice among its keys; and every address in it is lowercase and
    holds the space that joins the house number and the street. *)
Theorem extract_osm_data_dictionary (root : element) (address_dict : dict str) :
  extract_osm_data root = Ok address_dict ->
  NoDup (keys address_dict)
  /\ forall id address,
       dict_get address_dict id = Some address ->
       lower address = address /\ In " "%char address.
Proof.
  unfold extract_osm_data. intros H.
  pose proof (osm_elements_outcome (xpath_buildings root) []) as Hout.
  rewrite H in Hout. destruct Hout as [-> _].
  apply (entry_step_values (xpath_buildings root)
           (fun a => lower a = a /\ In " "%char a)).
  - intros e a. apply address_string_shape.
  - split; [constructor | discriminate].
Qed.

Lemma extract_osm_data_dictionary_witness :
  let address_dict := [item "7" "100 main street"; item "8" "12 elm street"] in
  NoDup (keys address_dict)
  /\ forall id address,
       dict_get address_dict id = Some address ->
       lower address = address /\ In " "%char address.
Proof.
  cbv zeta. apply (@extract_osm_data_dictionary osm_one_address).
  vm_compute. reflexivity.
Defined.

(** * append_xml: the output dictionary and the tree *)

Section AppendOutcome.
Variable element_path : element -> str -> result (option path).

Lemma append_loop_sound (input_dict : dict str) (items : list (str * str))
    (id address : str) :
  forall (t : element) (out : dict str),
    dict_get (fst (append_loop element_path input_dict items t out)) id = Some address ->
    dict_get out id = Some address
    \/ (In (id, address) items /\ dict_in input_dict address = true).
Proof.
  induction items as [|[id' address'] rest IH]; intros t out; [cbn; auto|].
  assert (Hrest : forall t' out',
             dict_get (fst (append_loop element_path input_dict rest t' out')) id
             = Some address ->
             dict_get out' id = Some address
             \/ (In (id, address) ((id', address') :: rest)
                 /\ dict_in input_dict address = true)).
  { intros t' out' H. destruct (IH t' out' H) as [? | [? ?]]; auto using in_cons. }
  cbn [append_loop].
  destruct (dict_in input_dict address') eqn:Hin; [|apply Hrest].
  assert (Hset : dict_get (dict_set out id' address') id = Some address ->
                 dict_get out id = Some address
                 \/ (In (id, address) ((id', address') :: rest)
                     /\ dict_in input_dict address = true)).
  { rewrite dict_get_set. destruct (str_eqb id' id) eqn:E; [|auto].
    apply str_eqb_eq in E as ->. intros [= <-]. right.
    split; [left; reflexivity | exact Hin]. }
  destruct (find element_path t id') as [[p|]|e]; [|apply Hrest | cbn; auto].
  destruct (option_map children (get_at t p)) as [[|c cs]|];
    try (cbn [fst]; exact Hset).
  destruct (v <- dict_item input_dict address' ;; new_dwelling_tag v);
    [|cbn [fst]; exact Hset].
  intros H. destruct (IH _ _ H) as [H' | [? ?]]; [|auto using in_cons].
  apply Hset; assumption.
Qed.

(** X11: whatever happens, [append_xml] stores in the output dictionary only
    entries of [element_dict] whose address is a key of [input_dict]: an
    entry of the result was there before or is such an entry. *)
Theorem append_xml_output_sound
    (xml_tree : element) (element_dict input_dict output_dict : dict str)
    (id address : str) :
  dict_get (fst (append_xml element_path xml_tree element_dict input_dict output_dict)) id
  = Some address ->
  dict_get output_dict id = Some address
  \/ (In (id, address) element_dict /\ dict_in input_dict address = true).
Proof. unfold append_xml. apply append_loop_sound. Qed.

(** X12: when no address of [element_dict] is a key of [input_dict],
    [append_xml] raises nothing, leaves the output dictionary as it is and
    writes the tree it read. *)
Theorem append_xml_no_match
    (xml_tree : element) (element_dict input_dict output_dict : dict str) :
  (forall id address, In (id, address) element_dict ->
                      dict_in input_dict address = false) ->
  append_xml element_path xml_tree element_dict input_dict output_dict
  = (output_dict, Ok xml_tree).
Proof.
  unfold append_xml.
  induction element_dict as [|[id address] rest IH]; intros H; [reflexivity|].
  cbn [append_loop]. rewrite (H id address (or_introl eq_refl)).
  apply IH. intros id' address' Hin. apply (H id' address'). right. exact Hin.
Qed.

Lemma append_loop_grown (input_dict : dict str) (t0 : element)
    (items : list (str * str)) :
  forall (t : element) (out : dict str),
    grown t0 t ->
    forall tree', snd (append_loop element_path input_dict items t out) = Ok tree' ->
                  grown t0 tree'.
Proof.
  induction items as [|[id address] rest IH]; intros t out Hg tree'.
  - cbn. intros [= <-]. exact Hg.
  - cbn [append_loop].
    destruct (dict_in input_dict address); [|apply IH, Hg].
    destruct (find element_path t id) as [[p|]|e]; [|apply IH, Hg | discriminate].
    destruct (option_map children (get_at t p)) as [[|c cs]|]; try discriminate.
    destruct (v <- dict_item input_dict address ;; new_dwelling_tag v);
      [|discriminate].
    apply IH, grown_append, Hg.
Qed.

(** X13: [append_xml] removes and renames nothing: every element of the tree
    read is in the tree written at the same place, with the same tag and
    attributes and with at least as many children. *)
Theorem append_xml_keeps_elements
    (xml_tree : element) (element_dict input_dict output_dict : dict str)
    (tree' : element) :
  snd (append_xml element_path xml_tree element_dict input_dict output_dict) = Ok tree' ->
  grown xml_tree tree'.
Proof.
  unfold append_xml. apply append_loop_grown, grown_refl.
Qed.
End AppendOutcome.

Lemma append_xml_output_sound_witness :
  dict_get ([] : dict str) (str_of_string "7") = Some (str_of_string "100 main street")
  \/ (In (str_of_string "7", str_of_string "100 main street")
         [item "7" "100 main street"; item "8" "12 elm street"]
      /\ dict_in records_main_street (str_of_string "100 main street") = true).
Proof.
  apply (@append_xml_output_sound any_element_path osm_one_address
           [item "7" "100 main street"; item "8" "12 elm street"]
           records_main_street []).
  vm_compute. reflexivity.
Defined.

Lemma append_xml_no_match_witness :
  append_xml any_element_path osm_one_address
             [item "7" "100 main street"; item "8" "12 elm street"] [] []
  = ([], Ok osm_one_address).
Proof.
  apply (@append_xml_no_match any_element_path). intros id address _. reflexivity.
Defined.

Lemma append_xml_keeps_elements_witness :
  exists tree',
    snd (append_xml any_element_path osm_one_address
                    [item "7" "100 main street"; item "8" "12 elm street"]
                    records_main_street []) = Ok tree'
    /\ grown osm_one_address tree'.
Proof.
  eexists. split; [vm_compute; reflexivity|].
  apply (@append_xml_keeps_elements any_element_path osm_one_address
           [item "7" "100 main street"; item "8" "12 elm street"]
           records_main_street []).
  vm_compute. reflexivity.
Defined.

Lemma append_xml_join_witness :
  exists out' tree',
    append_xml any_element_path osm_one_address
               [item "7" "100 main street"; item "8" "12 elm street"]
               records_main_street [] = (out', Ok tree')
    /\ forall id address units p,
         In (id, address) [item "7" "100 main street"; item "8" "12 elm street"] ->
         dict_get records_main_street address = Some units ->
         find any_element_path osm_one_address id = Ok (Some p) ->
         dict_get out' id = Some address
         /\ exists e e',
              get_at osm_one_address p = Some e /\ get_at tree' p = Some e'
              /\ label e' = label e
              /\ map label (children e')
                 = map label (children e) ++ [label (dwelling_tag units)].
Proof.
  apply (@append_xml_join any_element_path).
  - repeat constructor; simpl; intuition discriminate.
  - intros id address units Hin Hget.
    destruct Hin as [Hin | [Hin | []]]; injection Hin as <- <-.
    + injection Hget as <-. split; [reflexivity|]. split; [reflexivity|].
      intros p e Hf Hp. injection Hf as <-. injection Hp as <-. discriminate.
    + discriminate Hget.
Defined.

(** * map_addresses: the markers *)

(** X14: [map_addresses] places at most [max_addresses + 1] markers, that
    is 601, and no more than there are entries. *)
Theorem map_addresses_bound
    (coord : Type) (geocode : str -> option (coord * coord))
    (address_dict : dict str) :
  length (snd (map_addresses geocode address_dict))
  <= Nat.min (length address_dict) (S max_addresses).
Proof.
  rewrite map_addresses_spec. cbn [snd].
  etransitivity; [apply markers_of_length|].
  rewrite length_firstn, Nat.min_comm. reflexivity.
Qed.

(** X15: the markers that [map_addresses] places are those of the entries
    among the first [max_addresses + 1] whose address the geocoder resolves:
    each is at the place the geocoder gives and is labelled with the
    address, a line break and the identifier in parentheses. *)
Theorem map_addresses_markers
    (coord : Type) (geocode : str -> option (coord * coord))
    (address_dict : dict str) (m : marker coord) :
  In m (snd (map_addresses geocode address_dict)) <->
  exists id address loc,
    In (id, address) (firstn (S max_addresses) address_dict)
    /\ geocode address = Some loc
    /\ m = Marker loc (address ++ [ascii_of_nat 10] ++ str_of_string "("
                               ++ id ++ str_of_string ")").
Proof.
  rewrite map_addresses_spec. cbn [snd]. unfold markers_of.
  rewrite in_flat_map. split.
  - intros ([id address] & Hin & Hm). cbn [fst snd] in Hm.
    destruct (geocode address) as [loc|] eqn:E; [|contradiction].
    destruct Hm as [<- | []]. exists id, address, loc. auto.
  - intros (id & address & loc & Hin & E & ->). exists (id, address).
    split; [exact Hin|]. cbn [fst snd]. rewrite E. left. reflexivity.
Qed.

(** * The program *)

Lemma append_loop_NoDup (element_path : element -> str -> result (option path))
    (input_dict : dict str) (items : list (str * str)) :
  forall (t : element) (out : dict str),
    NoDup (keys out) ->
    NoDup (keys (fst (append_loop element_path input_dict items t out))).
Proof.
  induction items as [|[id address] rest IH]; intros t out Hout; [exact Hout|].
  pose proof (dict_set_NoDup out id address Hout) as Hset.
  cbn [append_loop].
  destruct (dict_in input_dict address); [|apply IH, Hout].
  destruct (find element_path t id) as [[p|]|e]; [|apply IH, Hout | exact Hout].
  destruct (option_map children (get_at t p)) as [[|c cs]|]; try exact Hset.
  destruct (v <- dict_item input_dict address ;; new_dwelling_tag v);
    [apply IH, Hset | exact Hset].
Qed.

Lemma extract_osm_data_NoDup (root : element) (address_dict : dict str) :
  extract_osm_data root = Ok address_dict -> NoDup (keys address_dict).
Proof.
  unfold extract_osm_data. intros H.
  pose proof (osm_elements_outcome (xpath_buildings root) []) as Hout.
  rewrite H in Hout. destruct Hout as [-> _].
  apply (entry_step_values (xpath_buildings root) (fun _ => True)); auto.
  split; [constructor | auto].
Qed.

(** X16: the program end to end.  When [main] raises nothing, both
    extractions returned; every element of the document is kept in the tree
    written; every entry of [addresses] is an entry of the dictionary of
    [extract_osm_data] whose address is a key of the dictionary of
    [extract_csv_data]; and every marker placed is that of an entry of
    [addresses] whose address the geocoder resolves. *)
Theorem main_sound
    (element_path : element -> str -> result (option path))
    (coord : Type) (geocode : str -> option (coord * coord))
    (reader : list (list str)) (root tree : element) (addresses : dict str)
    (shown : nat * list (marker coord)) :
  main element_path geocode reader root = Ok (tree, addresses, shown) ->
  exists csv_dict xml_dict,
    extract_csv_data reader = Ok csv_dict
    /\ extract_osm_data root = Ok xml_dict
    /\ grown root tree
    /\ (forall id address,
          dict_get addresses id = Some address ->
          dict_get xml_dict id = Some address
          /\ dict_in csv_dict address = true)
    /\ (forall m,
          In m (snd shown) ->
          exists id address loc,
            dict_get addresses id = Some address
            /\ geocode address = Some loc
            /\ m = Marker loc (popup_text id address)).
Proof.
  unfold main.
  destruct (extract_csv_data reader) as [csv_dict|] eqn:Hcsv; [|discriminate].
  destruct (extract_osm_data root) as [xml_dict|] eqn:Hosm; [|discriminate].
  cbn [bind].
  destruct (append_xml element_path root xml_dict csv_dict []) as [out [t|e]] eqn:Happ;
    [|discriminate].
  intros [= <- <- <-]. exists csv_dict, xml_dict.
  split; [reflexivity|]. split; [reflexivity|]. split; [|split].
  - apply (@append_loop_grown element_path csv_dict root xml_dict root [] (grown_refl root)).
    unfold append_xml in Happ. rewrite Happ. reflexivity.
  - intros id address Hget.
    destruct (@append_loop_sound element_path csv_dict xml_dict id address root [])
      as [H | [Hin Hkey]].
    + unfold append_xml in Happ. rewrite Happ. exact Hget.
    + discriminate H.
    + split; [|exact Hkey].
      apply dict_get_In; [apply (@extract_osm_data_NoDup root _ Hosm) | exact Hin].
  - intros m Hm. rewrite map_addresses_spec in Hm. cbn [snd] in Hm.
    unfold markers_of in Hm. apply in_flat_map in Hm as ([id address] & Hin & Hm).
    cbn [fst snd] in Hm.
    destruct (geocode address) as [loc|] eqn:E; [|contradiction].
    destruct Hm as [<- | []]. exists id, address, loc.
    split; [|auto]. apply dict_get_In.
    + pose proof (@append_loop_NoDup element_path csv_dict xml_dict root []
                  (NoDup_nil str)) as H.
      unfold append_xml in Happ. rewrite Happ in H. exact H.
    + eapply In_firstn, Hin.
Qed.

Lemma main_sound_witness :
  let geocode := fun _ : str => Some (45, 122) in
  let reader :=
    [ [str_of_string "address"; str_of_string "permit"; str_of_string "units"];
      [str_of_string "100 Main St"; str_of_string "B-1"; str_of_string "4"] ] in
  exists tree addresses shown,
    main any_element_path geocode reader osm_one_address
    = Ok (tree, addresses, shown)
    /\ exists csv_dict xml_dict,
         extract_csv_data reader = Ok csv_dict
         /\ extract_osm_data osm_one_address = Ok xml_dict
         /\ grown osm_one_address tree
         /\ (forall id address,
               dict_get addresses id = Some address ->
               dict_get xml_dict id = Some address
               /\ dict_in csv_dict address = true)
         /\ (forall m,
               In m (snd shown) ->
               exists id address loc,
                 dict_get addresses id = Some address
                 /\ geocode address = Some loc
                 /\ m = Marker loc (popup_text id address)).
Proof.
  cbv zeta. eexists. eexists. eexists.
  split; [vm_compute; reflexivity|].
  apply (@main_sound any_element_path nat (fun _ : str => Some (45, 122))).
  vm_compute. reflexivity.
Defined.
